(** * The API gateway of go-micro-services (cmd/gateway/main.go)

    A shallow embedding of the gateway's endpoint factories, of its wiring of
    instancers, endpointers, round-robin balancers and retry endpoints, and of
    its start-up sequence, together with the properties the specification
    states about them. *)

From Stdlib Require Import ZArith Lia.
From stdpp Require Import base list strings.

(** ** Go values used by the gateway *)

(** [strings.HasPrefix s prefix]. *)
Definition HasPrefix (s prefix : string) : bool := String.prefix prefix s.

(** Go's [error] values met on the gateway's paths. *)
Inductive error : Type :=
| url_Error (op url msg : string)
| fmt_Errorf (format : string) (args : list string)
| api_Error (msg : string).

(** The fields of [url.URL] the gateway touches. *)
Record URL : Type := mkURL {
  Scheme : string;
  Opaque : string;
  Host : string;
  Path : string;
  RawQuery : string;
  Fragment : string
}.

(** [tgt.Path = path]. *)
Definition set_Path (tgt : URL) (path : string) : URL :=
  {| Scheme := Scheme tgt; Opaque := Opaque tgt; Host := Host tgt;
     Path := path; RawQuery := RawQuery tgt; Fragment := Fragment tgt |}.

Inductive Context : Type := context_Background.

(** The request encoders and response decoders of the two service packages;
    the gateway only passes them around. *)
Inductive EncodeRequestFunc : Type :=
| addtransport_EncodeHTTPGenericRequest
| stringsvc_EncodeRequest.

Inductive DecodeResponseFunc : Type :=
| addtransport_DecodeHTTPSumResponse
| addtransport_DecodeHTTPConcatResponse
| stringsvc_DecodeUppercaseResponse
| stringsvc_DecodeCountResponse.

(** [httptransport.NewClient(method, tgt, enc, dec).Endpoint()]: the endpoint
    is the closure over the client's four fields. *)
Record Endpoint : Type := NewClient {
  client_method : string;
  client_tgt : URL;
  client_enc : EncodeRequestFunc;
  client_dec : DecodeResponseFunc
}.

(** [io.Closer]: a handle on a transport resource to release. *)
Inductive Closer : Type := closer_of (resource : nat).

(** [sd.Factory]: [func(instance string) (endpoint.Endpoint, io.Closer, error)].
    Each component of the returned triple may be nil. *)
Definition Built : Type := (option Endpoint * option Closer * option error)%type.
Definition Factory : Type := string -> Built.

Definition built_endpoint (b : Built) : option Endpoint := fst (fst b).
Definition built_closer (b : Built) : option Closer := snd (fst b).

(** ** The endpoint factories *)

Section Factories.

(** [url.Parse] of the Go standard library. *)
Variable url_Parse : string -> URL + error.

(** The first statement of both factories: the address handed to
    [url.Parse]. *)
Definition normalize (instance : string) : string :=
  if negb (HasPrefix instance "http") then "http://" +:+ instance
  else instance.

Definition addsvcFactory (ctx : Context) (method path : string) : Factory :=
  fun instance =>
    let instance := normalize instance in
    match url_Parse instance with
    | inr err => (None, None, Some err)
    | inl tgt =>
        let tgt := set_Path tgt path in
        if String.eqb path "/sum" then
          (Some (NewClient method tgt addtransport_EncodeHTTPGenericRequest
                   addtransport_DecodeHTTPSumResponse), None, None)
        else if String.eqb path "/concat" then
          (Some (NewClient method tgt addtransport_EncodeHTTPGenericRequest
                   addtransport_DecodeHTTPConcatResponse), None, None)
        else
          (None, None, Some (fmt_Errorf "unknown stringsvc path %q" [path]))
    end.

Definition stringsvcFactory (ctx : Context) (method path : string) : Factory :=
  fun instance =>
    let instance := normalize instance in
    match url_Parse instance with
    | inr err => (None, None, Some err)
    | inl tgt =>
        let tgt := set_Path tgt path in
        if String.eqb path "/uppercase" then
          (Some (NewClient method tgt stringsvc_EncodeRequest
                   stringsvc_DecodeUppercaseResponse), None, None)
        else if String.eqb path "/count" then
          (Some (NewClient method tgt stringsvc_EncodeRequest
                   stringsvc_DecodeCountResponse), None, None)
        else
          (None, None, Some (fmt_Errorf "unknown stringsvc path %q" [path]))
    end.

End Factories.

(** ** Load balancing and retry (go-kit's [sd/lb]) *)

Inductive lb_error : Type := NoEndpoints.

(** A failed invocation attempt. *)
Inductive TransportError : Type :=
| ConnectionRefused
| AttemptTimeout
| NonSuccessResponse (status : nat).

(** What [Invoke] reports to its caller when it does not succeed. *)
Inductive InvokeError : Type :=
| NoEndpointsError
| RetryExhaustedError (last : TransportError)
| CanceledError.

(** Modelled from the spec: the RetryPolicy of the data model (the arguments
    of [lb.Retry], whose code is not part of the gateway's sources):
    [maxAttempts] is a positive integer, [timeoutBudget] a duration. *)
Record RetryPolicy : Type := mkRetryPolicy {
  maxAttempts : positive;
  timeoutBudget : nat
}.

Section LoadBalancer.

Context {E : Type}.

(** Modelled from the spec: [Select] of the round-robin balancer that
    [lb.NewRoundRobin] builds (its code is not part of the gateway's
    sources). It returns the record at [cursor mod len(snapshot)] and
    advances the cursor; on an empty snapshot it fails with NoEndpoints. *)
Definition Select (snapshot : list E) (cursor : nat) : (lb_error + E) * nat :=
  match snapshot with
  | [] => (inl NoEndpoints, cursor)
  | e0 :: _ => (inr (nth (cursor mod length snapshot) snapshot e0), S cursor)
  end.

(** [n] consecutive [Select] calls on one balancer over a static pool:
    the results in call order, and the cursor left behind. *)
Fixpoint select_n (n : nat) (snapshot : list E) (cursor : nat)
  : list (lb_error + E) * nat :=
  match n with
  | 0 => ([], cursor)
  | S n' =>
      let '(r, cursor') := Select snapshot cursor in
      let '(rs, cursor'') := select_n n' snapshot cursor' in
      (r :: rs, cursor'')
  end.

End LoadBalancer.

Section RetryOrchestrator.

Context {E R : Type}.

(** One network round trip: how long it takes and how it ends. *)
Inductive Outcome : Type :=
| Succeeded (response : R)
| Failed (e : TransportError).

Record Reply : Type := mkReply { took : nat; outcome : Outcome }.

(** The pool's published snapshot and the transport's behaviour, both as
    functions of the time elapsed since the call began: the background
    refresh replaces the snapshot while the call is retrying. *)
Variable Current : nat -> list E.
Variable transport : nat -> E -> Reply.

(** The state of one call between two iterations. *)
Record CallState : Type := mkCallState {
  made : nat;                     (* attempts made so far *)
  clock : nat;                    (* time elapsed so far *)
  cursor : nat;                   (* the balancer's cursor *)
  selections : list (nat * E)     (* endpoints selected, with the time of selection *)
}.

Record CallReport : Type := mkCallReport {
  result : InvokeError + R;
  final : CallState
}.

Definition attempts (r : CallReport) : nat := made (final r).
Definition elapsed (r : CallReport) : nat := clock (final r).
Definition selected (r : CallReport) : list (nat * E) := selections (final r).

(** Modelled from the spec: the loop of the endpoint [lb.Retry] returns
    (its code is not part of the gateway's sources), after the state
    machine START -> (SELECT -> INVOKE -> SUCCESS | FAIL -> SELECT ...)
    -> EXHAUSTED | CANCELED. Every iteration selects from the pool's
    current snapshot; an empty snapshot ends the call at once; each attempt
    runs under the remaining budget and is canceled when the budget expires
    during it; after a failure the loop exits as soon as the attempt bound
    or the time bound is reached. [more] counts the attempts still allowed
    after the coming one. *)
Fixpoint retry_loop (budget : nat) (more : nat) (st : CallState) : CallReport :=
  let '(sel, cursor') := Select (Current (clock st)) (cursor st) in
  match sel with
  | inl NoEndpoints =>
      mkCallReport (inl NoEndpointsError)
        (mkCallState (made st) (clock st) cursor' (selections st))
  | inr e =>
      let trace := selections st ++ [(clock st, e)] in
      let reply := transport (clock st) e in
      if budget - clock st <? took reply then
        mkCallReport (inl CanceledError)
          (mkCallState (S (made st)) budget cursor' trace)
      else
        let st' := mkCallState (S (made st)) (clock st + took reply) cursor' trace in
        match outcome reply with
        | Succeeded response => mkCallReport (inr response) st'
        | Failed err =>
            match more with
            | 0 => mkCallReport (inl (RetryExhaustedError err)) st'
            | S more' =>
                if budget <=? clock st' then
                  mkCallReport (inl (RetryExhaustedError err)) st'
                else retry_loop budget more' st'
            end
        end
  end.

(** A trace of selections is read from the current snapshots when its
    [k]-th entry is what [Select] returns, with the cursor [c0 + k], on the
    snapshot published at the entry's time. *)
Definition from_current (c0 : nat) (trace : list (nat * E)) : Prop :=
  forall k now e,
    trace !! k = Some (now, e) -> fst (Select (Current now) (c0 + k)) = inr e.

(** Modelled from the spec: [Invoke] of the Retry Orchestrator, on a
    balancer whose cursor is [cursor0]. *)
Definition Invoke (policy : RetryPolicy) (cursor0 : nat) : CallReport :=
  retry_loop (timeoutBudget policy) (Pos.to_nat (maxAttempts policy) - 1)
    (mkCallState 0 0 cursor0 []).

End RetryOrchestrator.

(** ** The endpoint pool ([sd.Endpointer]) *)

(** One record per (instance, route) pair. *)
Record EndpointRecord : Type := mkEndpointRecord {
  owner : string;
  callable : Endpoint;
  releasable : option Closer
}.

(** Modelled from the spec: what the Endpoint Pool built by
    [sd.NewEndpointer] (its code is not part of the gateway's sources) does
    with the factory's answer for one added instance: a failed build is
    left out of the snapshot. *)
Definition accept_instance (factory : Factory) (instance : string)
  : option EndpointRecord :=
  match factory instance with
  | (Some e, c, None) => Some (mkEndpointRecord instance e c)
  | _ => None
  end.

Definition owned_by (instance : string) (r : EndpointRecord) : bool :=
  String.eqb (owner r) instance.

(** Modelled from the spec: one refresh of the Endpoint Pool on a watcher
    notification. Instances already in the previous snapshot keep their
    record, added ones go through the factory, and the closers of the
    records whose instance is gone are released. The result is the new
    snapshot and the closers released. *)
Fixpoint refresh_records (factory : Factory) (prev : list EndpointRecord)
    (instances : list string) : list EndpointRecord :=
  match instances with
  | [] => []
  | i :: rest =>
      match find (owned_by i) prev with
      | Some r => r :: refresh_records factory prev rest
      | None =>
          match accept_instance factory i with
          | Some r => r :: refresh_records factory prev rest
          | None => refresh_records factory prev rest
          end
      end
  end.

Definition still_reported (instances : list string) (r : EndpointRecord) : bool :=
  existsb (String.eqb (owner r)) instances.

(** Modelled from the spec: the closers the Endpoint Pool calls on a
    refresh, one for each record of the previous snapshot whose instance is
    no longer reported and whose closer is not nil. *)
Definition released (prev : list EndpointRecord) (instances : list string)
  : list Closer :=
  omap releasable (filter (fun r => still_reported instances r = false) prev).

(** Modelled from the spec: a refresh publishes the new snapshot and
    releases the removed records. *)
Definition refresh (factory : Factory) (prev : list EndpointRecord)
    (instances : list string) : list EndpointRecord * list Closer :=
  (refresh_records factory prev instances, released prev instances).

(** Modelled from the spec: the pool after a sequence of watcher
    notifications, with every closer released on the way. *)
Fixpoint pool_after (factory : Factory) (prev : list EndpointRecord)
    (notifications : list (list string)) : list EndpointRecord * list Closer :=
  match notifications with
  | [] => (prev, [])
  | instances :: later =>
      let '(snapshot, closed) := refresh factory prev instances in
      let '(last, closed') := pool_after factory snapshot later in
      (last, closed ++ closed')
  end.

(** ** The process: objects, routes, events *)

(** The request decoders and response encoders handed to
    [httptransport.NewServer]. *)
Inductive DecodeRequestFunc : Type :=
| addtransport_DecodeHTTPSumRequest
| addtransport_DecodeHTTPConcatRequest
| stringsvc_DecodeUppercaseRequest.

Inductive EncodeResponseFunc : Type :=
| addtransport_EncodeHTTPGenericResponse
| stringsvc_EncodeResponse.

(** [api.Config]: the agent address and the rest of the defaults. *)
Record Config : Type := mkConfig {
  Address : string;
  Datacenter : string
}.

Definition set_Address (c : Config) (addr : string) : Config :=
  {| Address := addr; Datacenter := Datacenter c |}.

(** The objects the wiring allocates; a reference is an index in the heap. *)
Inductive Object : Type :=
| Instancer (service : string) (tags : list string) (passingOnly : bool)
| Endpointer (instancer : nat) (factory : Factory)
| RoundRobin (endpointer : nat) (c : nat)
| RetryEndpoint (max : Z) (timeout : Z) (balancer : nat).

(** [httptransport.NewServer(e, dec, enc)]. *)
Record Server : Type := NewServer {
  srv_endpoint : nat;
  srv_dec : DecodeRequestFunc;
  srv_enc : EncodeResponseFunc
}.

Inductive Value : Type :=
| VString (s : string)
| VError (e : error).

Inductive Event : Type :=
| EvLog (keyvals : list Value)
| EvSignalNotify
| EvListenAndServe (addr : string).

Record World : Type := mkWorld {
  heap : list Object;
  routes : list (string * Server);
  events : list Event
}.

Definition boot : World := mkWorld [] [] [].

(** A computation of the process either goes on with a value or has called
    [os.Exit] with a status. *)
Inductive Step (A : Type) : Type :=
| Continue (a : A)
| Exited (status : Z).
Arguments Continue {A} a.
Arguments Exited {A} status.

Definition Proc (A : Type) : Type := World -> Step A * World.

Definition ret {A} (a : A) : Proc A := fun w => (Continue a, w).

Definition bind {A B} (m : Proc A) (k : A -> Proc B) : Proc B :=
  fun w =>
    match m w with
    | (Continue a, w') => k a w'
    | (Exited status, w') => (Exited status, w')
    end.

Declare Scope proc_scope.
Delimit Scope proc_scope with proc.
Notation "x <- m ;; k" := (bind m (fun x => k))
  (at level 100, m at next level, right associativity) : proc_scope.
Notation "m ;; k" := (bind m (fun _ => k))
  (at level 100, right associativity) : proc_scope.

Definition os_Exit {A} (status : Z) : Proc A := fun w => (Exited status, w).

Definition emit (e : Event) : Proc unit :=
  fun w => (Continue tt, mkWorld (heap w) (routes w) (events w ++ [e])).

(** [logger.Log(keyvals...)]; the logger prefixes the timestamp and the caller. *)
Definition Log (keyvals : list Value) : Proc unit := emit (EvLog keyvals).

Definition alloc (o : Object) : Proc nat :=
  fun w => (Continue (length (heap w)), mkWorld (heap w ++ [o]) (routes w) (events w)).

(** [r.Handle(path, server)]. *)
Definition Handle (path : string) (s : Server) : Proc unit :=
  fun w => (Continue tt, mkWorld (heap w) (routes w ++ [(path, s)]) (events w)).

(** Modelled from the spec: the constructors of go-kit's [sd/consul], [sd]
    and [sd/lb] packages (their code is not part of the gateway's sources).
    Each call builds a new object: an Instance Watcher for one service name,
    an Endpoint Pool subscribed to a watcher with a factory, a Load Balancer
    over a pool with a cursor of its own, starting at 0, and a Retry
    Orchestrator wrapping a balancer. *)
Definition NewInstancer (service : string) (tags : list string) (passingOnly : bool)
  : Proc nat := alloc (Instancer service tags passingOnly).
Definition NewEndpointer (instancer : nat) (factory : Factory) : Proc nat :=
  alloc (Endpointer instancer factory).
Definition NewRoundRobin (endpointer : nat) : Proc nat :=
  alloc (RoundRobin endpointer 0).
Definition Retry (max timeout : Z) (balancer : nat) : Proc nat :=
  alloc (RetryEndpoint max timeout balancer).

Record Flags : Type := mkFlags {
  httpAddr : string;
  consulAddr : string;
  retryMax : Z;
  retryTimeout : Z
}.

(** The flags' default values; a duration counts nanoseconds. *)
Definition default_flags : Flags := mkFlags ":8000" ":8500" 3 500000000.

Section Gateway.

Variable ConsulClient : Type.
Variable url_Parse : string -> URL + error.
Variable api_DefaultConfig : Config.
Variable api_NewClient : Config -> ConsulClient + error.
(** What arrives first on [errc]: a signal or the listener's error. *)
Variable errc : error.

(** [consulsd.NewClient]. *)
Inductive consulsd_Client : Type := consulsd_NewClient (c : ConsulClient).

Local Open Scope proc_scope.

(** The configuration [main] hands to [api.NewClient]. *)
Definition consul_config (flags : Flags) : Config :=
  let consulConfig := api_DefaultConfig in
  if 0 <? String.length (consulAddr flags)
  then set_Address consulConfig (consulAddr flags)
  else consulConfig.

(** The service discovery block of [main]. *)
Definition main_client (flags : Flags) : Proc consulsd_Client :=
  match api_NewClient (consul_config flags) with
  | inr err => Log [VString "err"; VError err] ;; os_Exit 1
  | inl consulClient => ret (consulsd_NewClient consulClient)
  end.

(** One route's chain: factory, endpointer, balancer, retry. *)
Definition wire_route (flags : Flags) (instancer : nat) (factory : Factory)
  : Proc nat :=
  endpointer <- NewEndpointer instancer factory ;;
  balancer <- NewRoundRobin endpointer ;;
  Retry (retryMax flags) (retryTimeout flags) balancer.

(** [main], after [flag.Parse] and the logger's set-up. The two goroutines
    started at the end are recorded by their effects in program order, and
    [errc] is what [main] receives on the channel before its last log. *)
Definition main (flags : Flags) : Proc unit :=
  client <- main_client flags ;;
  let ctx := context_Background in
  (* addsvc routes *)
  instancer <- NewInstancer "addsvc" [] true ;;
  sum <- wire_route flags instancer (addsvcFactory url_Parse ctx "POST" "/sum") ;;
  concat <- wire_route flags instancer (addsvcFactory url_Parse ctx "POST" "/concat") ;;
  Handle "/addsvc/sum"
    (NewServer sum addtransport_DecodeHTTPSumRequest
       addtransport_EncodeHTTPGenericResponse) ;;
  Handle "/addsvc/concat"
    (NewServer concat addtransport_DecodeHTTPConcatRequest
       addtransport_EncodeHTTPGenericResponse) ;;
  (* stringsvc routes *)
  instancer <- NewInstancer "addstring" [] true ;;
  uppercase <- wire_route flags instancer
                 (stringsvcFactory url_Parse ctx "POST" "/uppercase") ;;
  count <- wire_route flags instancer
             (stringsvcFactory url_Parse ctx "POST" "/count") ;;
  Handle "/stringsvc/uppercase"
    (NewServer uppercase stringsvc_DecodeUppercaseRequest stringsvc_EncodeResponse) ;;
  Handle "/stringsvc/count"
    (NewServer count stringsvc_DecodeUppercaseRequest stringsvc_EncodeResponse) ;;
  (* interrupt handler and HTTP transport, then the wait on errc *)
  emit EvSignalNotify ;;
  Log [VString "strtransport"; VString "HTTP"; VString "addr";
       VString (httpAddr flags)] ;;
  emit (EvListenAndServe (httpAddr flags)) ;;
  Log [VString "exit"; VError errc].

(** The discovery package's [getClient]; [ReadConfig] comes from another
    file of the package and gives the agent address. *)
Variable ReadConfig_Consul : string.

Definition getClient : Proc consulsd_Client :=
  let consulConfig := set_Address api_DefaultConfig ReadConfig_Consul in
  match api_NewClient consulConfig with
  | inr err => Log [VString "err"; VError err] ;; os_Exit 1
  | inl consulClient => ret (consulsd_NewClient consulClient)
  end.

End Gateway.

(** ** Reading the wiring back *)

(** The server bound to a path; the router tries its routes in the order of
    registration. *)
Definition route (w : World) (path : string) : option Server :=
  snd <$> find (fun '(p, _) => String.eqb p path) (routes w).

Definition route_retry (w : World) (path : string) : option nat :=
  srv_endpoint <$> route w path.

Definition route_balancer (w : World) (path : string) : option nat :=
  r ← route_retry w path;
  match heap w !! r with
  | Some (RetryEndpoint _ _ b) => Some b
  | _ => None
  end.

Definition route_endpointer (w : World) (path : string) : option nat :=
  b ← route_balancer w path;
  match heap w !! b with
  | Some (RoundRobin ep _) => Some ep
  | _ => None
  end.

Definition route_instancer (w : World) (path : string) : option nat :=
  ep ← route_endpointer w path;
  match heap w !! ep with
  | Some (Endpointer i _) => Some i
  | _ => None
  end.

(** The service names watched, one entry per instancer object. *)
Definition watched (w : World) : list string :=
  omap (fun o => match o with
                 | Instancer service _ _ => Some service
                 | _ => None
                 end) (heap w).

Definition instancer_service (w : World) (i : nat) : option string :=
  match heap w !! i with
  | Some (Instancer service _ _) => Some service
  | _ => None
  end.

Definition balancer_cursor (w : World) (b : nat) : option nat :=
  match heap w !! b with
  | Some (RoundRobin _ c) => Some c
  | _ => None
  end.

Definition route_cursor (w : World) (path : string) : option nat :=
  b ← route_balancer w path; balancer_cursor w b.

(** The factory of the endpointer behind a route. *)
Definition route_factory (w : World) (path : string) : option Factory :=
  ep ← route_endpointer w path;
  match heap w !! ep with
  | Some (Endpointer _ factory) => Some factory
  | _ => None
  end.

(** The retry bounds handed to [lb.Retry] for a route. *)
Definition route_policy (w : World) (path : string) : option (Z * Z) :=
  r ← route_retry w path;
  match heap w !! r with
  | Some (RetryEndpoint max timeout _) => Some (max, timeout)
  | _ => None
  end.

(** The paths [main] hands to [r.Handle]. *)
Definition gateway_routes : list string :=
  ["/addsvc/sum"; "/addsvc/concat"; "/stringsvc/uppercase"; "/stringsvc/count"].

(** Modelled from the spec: the snapshot an endpointer publishes when the
    registry reports [healthy service] for its instancer's service, built by
    the endpointer's own factory. *)
Definition endpointer_snapshot (healthy : string -> list string) (w : World)
    (ep : nat) : list EndpointRecord :=
  match heap w !! ep with
  | Some (Endpointer i factory) =>
      match instancer_service w i with
      | Some service => refresh_records factory [] (healthy service)
      | None => []
      end
  | _ => []
  end.

(** Modelled from the spec: one [Select] through the balancer object [b];
    the balancer reads its endpointer's snapshot and advances its own
    cursor in place. *)
Definition balancer_Select (healthy : string -> list string) (b : nat) (w : World)
  : (lb_error + EndpointRecord) * World :=
  match heap w !! b with
  | Some (RoundRobin ep c) =>
      let '(r, c') := Select (endpointer_snapshot healthy w ep) c in
      (r, mkWorld (<[b := RoundRobin ep c']> (heap w)) (routes w) (events w))
  | _ => (inl NoEndpoints, w)
  end.

(** One [Select] made on behalf of the route bound to [path]. *)
Definition route_Select (healthy : string -> list string) (path : string) (w : World)
  : (lb_error + EndpointRecord) * World :=
  match route_balancer w path with
  | Some b => balancer_Select healthy b w
  | None => (inl NoEndpoints, w)
  end.

(** What the boundary listener hands to the route's endpoint: the inbound
    request through the route's decoder. The decoders themselves belong to
    the service packages. *)
Definition route_decode {Inbound Req : Type}
    (decode : DecodeRequestFunc -> Inbound -> Req + error)
    (w : World) (path : string) (r : Inbound) : option (Req + error) :=
  (fun s => decode (srv_dec s) r) <$> route w path.

(** ** The specification's vocabulary *)

(** The paths each factory recognizes, as the specification lists them. *)
Definition addsvc_paths : list string := ["/sum"; "/concat"].
Definition stringsvc_paths : list string := ["/uppercase"; "/count"].

(** An address carries a scheme when the scheme separator occurs in it. *)
Definition has_scheme (instance : string) : bool :=
  match String.index 0 "://" instance with
  | Some _ => true
  | None => false
  end.

(** A parser that keeps the text it was handed, to observe what a factory
    parses. *)
Definition parse_verbatim (s : string) : URL + error :=
  inl (mkURL "" s "" "" "" "").


(** A parser for addresses of the form "http://host/path", to observe what
    becomes of an address's own path. *)
Definition parse_as_path (s : string) : URL + error :=
  match String.index 7 "/" s with
  | Some n =>
      inl (mkURL "http" "" (String.substring 7 (n - 7) s)
             (String.substring n (String.length s - n) s) "" "")
  | None =>
      inl (mkURL "http" "" (String.substring 7 (String.length s - 7) s) "" "" "")
  end.

(** ** Sample runs *)

(** A start-up with the default flags in which the registry client is
    built, later stopped by an interrupt. *)
Definition sample_config : Config := mkConfig "127.0.0.1:8500" "dc1".

Definition started : Step unit * World :=
  main unit parse_verbatim sample_config (fun _ => inl tt)
    (fmt_Errorf "%s" ["interrupt"]) default_flags boot.

(** A start-up in which building the registry client fails. *)
Definition refused : error := api_Error "invalid agent address".

Definition not_started : Step unit * World :=
  main unit parse_verbatim sample_config (fun _ => inr refused)
    (fmt_Errorf "%s" ["interrupt"]) default_flags boot.

(** A registry that reports one healthy instance for every service. *)
Definition one_instance (service : string) : list string := ["10.0.0.7:8080"].

(** Endpoints that always fail, each attempt taking [d] time units. *)
Definition always_failing (d : nat) (now : nat) (e : string) : @Reply string :=
  mkReply d (Failed ConnectionRefused).

(** A pool that a refresh at time 5 turns from [A, B] into [A, C]. *)
Definition churning_pool (now : nat) : list string :=
  if now <? 5 then ["A"; "B"] else ["A"; "C"].

Definition static_pool (pool : list string) (now : nat) : list string := pool.

(** * Properties *)

(** ** The endpoint factories *)

Section FactoryFacts.

Variable url_Parse : string -> URL + error.
Variables (ctx : Context) (method path instance : string).

Lemma addsvcFactory_rejected err :
  url_Parse (normalize instance) = inr err ->
  addsvcFactory url_Parse ctx method path instance = (None, None, Some err).
Proof. intros H. unfold addsvcFactory. now rewrite H. Qed.

Lemma stringsvcFactory_rejected err :
  url_Parse (normalize instance) = inr err ->
  stringsvcFactory url_Parse ctx method path instance = (None, None, Some err).
Proof. intros H. unfold stringsvcFactory. now rewrite H. Qed.

Lemma addsvcFactory_unknown tgt :
  url_Parse (normalize instance) = inl tgt ->
  ~ In path addsvc_paths ->
  addsvcFactory url_Parse ctx method path instance
  = (None, None, Some (fmt_Errorf "unknown stringsvc path %q" [path])).
Proof.
  intros H Hp. unfold addsvcFactory. rewrite H.
  destruct (String.eqb_spec path "/sum") as [->|_].
  { exfalso. apply Hp. simpl. auto. }
  destruct (String.eqb_spec path "/concat") as [->|_]; [|reflexivity].
  exfalso. apply Hp. simpl. auto.
Qed.

Lemma stringsvcFactory_unknown tgt :
  url_Parse (normalize instance) = inl tgt ->
  ~ In path stringsvc_paths ->
  stringsvcFactory url_Parse ctx method path instance
  = (None, None, Some (fmt_Errorf "unknown stringsvc path %q" [path])).
Proof.
  intros H Hp. unfold stringsvcFactory. rewrite H.
  destruct (String.eqb_spec path "/uppercase") as [->|_].
  { exfalso. apply Hp. simpl. auto. }
  destruct (String.eqb_spec path "/count") as [->|_]; [|reflexivity].
  exfalso. apply Hp. simpl. auto.
Qed.

Lemma addsvcFactory_built tgt :
  url_Parse (normalize instance) = inl tgt ->
  In path addsvc_paths ->
  exists dec,
    addsvcFactory url_Parse ctx method path instance
    = (Some (NewClient method (set_Path tgt path)
               addtransport_EncodeHTTPGenericRequest dec), None, None).
Proof.
  intros H Hp. unfold addsvcFactory. rewrite H.
  destruct Hp as [<-|[<-|[]]]; simpl; eauto.
Qed.

Lemma stringsvcFactory_built tgt :
  url_Parse (normalize instance) = inl tgt ->
  In path stringsvc_paths ->
  exists dec,
    stringsvcFactory url_Parse ctx method path instance
    = (Some (NewClient method (set_Path tgt path) stringsvc_EncodeRequest dec),
       None, None).
Proof.
  intros H Hp. unfold stringsvcFactory. rewrite H.
  destruct Hp as [<-|[<-|[]]]; simpl; eauto.
Qed.

(** Whatever a factory answers, its closer is nil. *)
Lemma addsvcFactory_closer :
  built_closer (addsvcFactory url_Parse ctx method path instance) = None.
Proof.
  unfold addsvcFactory.
  destruct (url_Parse (normalize instance)); [|reflexivity].
  destruct (String.eqb path "/sum"); [reflexivity|].
  destruct (String.eqb path "/concat"); reflexivity.
Qed.

Lemma stringsvcFactory_closer :
  built_closer (stringsvcFactory url_Parse ctx method path instance) = None.
Proof.
  unfold stringsvcFactory.
  destruct (url_Parse (normalize instance)); [|reflexivity].
  destruct (String.eqb path "/uppercase"); [reflexivity|].
  destruct (String.eqb path "/count"); reflexivity.
Qed.

End FactoryFacts.

(** C6. For every instance address and every path outside the recognized
    set of its service, the factory returns a build error with a nil
    endpoint and a nil closer; for a recognized path and an address that
    parses, it returns an endpoint (on the parsed target, with the route's
    path and method) and no error. *)
Theorem factory_build_error_or_endpoint :
  forall (url_Parse : string -> URL + error) (ctx : Context)
         (method path instance : string),
    (~ In path addsvc_paths ->
     exists err,
       addsvcFactory url_Parse ctx method path instance = (None, None, Some err))
    /\ (~ In path stringsvc_paths ->
        exists err,
          stringsvcFactory url_Parse ctx method path instance
          = (None, None, Some err))
    /\ (forall tgt, In path addsvc_paths ->
        url_Parse (normalize instance) = inl tgt ->
        exists e,
          addsvcFactory url_Parse ctx method path instance = (Some e, None, None)
          /\ client_tgt e = set_Path tgt path /\ client_method e = method)
    /\ (forall tgt, In path stringsvc_paths ->
        url_Parse (normalize instance) = inl tgt ->
        exists e,
          stringsvcFactory url_Parse ctx method path instance = (Some e, None, None)
          /\ client_tgt e = set_Path tgt path /\ client_method e = method).
Proof.
  intros url_Parse ctx method path instance. repeat split.
  - intros Hp. destruct (url_Parse (normalize instance)) as [tgt|err] eqn:Hparse.
    + eexists. eapply addsvcFactory_unknown; eassumption.
    + exists err. now apply addsvcFactory_rejected.
  - intros Hp. destruct (url_Parse (normalize instance)) as [tgt|err] eqn:Hparse.
    + eexists. eapply stringsvcFactory_unknown; eassumption.
    + exists err. now apply stringsvcFactory_rejected.
  - intros tgt Hp Hparse.
    destruct (addsvcFactory_built url_Parse ctx method path instance tgt Hparse Hp)
      as [dec ->].
    eexists. split; [reflexivity|]. split; reflexivity.
  - intros tgt Hp Hparse.
    destruct (stringsvcFactory_built url_Parse ctx method path instance tgt Hparse Hp)
      as [dec ->].
    eexists. split; [reflexivity|]. split; reflexivity.
Qed.

Lemma factory_build_error_or_endpoint_witness :
  (exists err,
     addsvcFactory parse_verbatim context_Background "POST" "/uppercase"
       "10.0.0.7:8080" = (None, None, Some err))
  /\ (exists e,
        stringsvcFactory parse_verbatim context_Background "POST" "/uppercase"
          "10.0.0.7:8080" = (Some e, None, None)
        /\ client_tgt e
           = set_Path (mkURL "" "http://10.0.0.7:8080" "" "" "" "") "/uppercase"
        /\ client_method e = "POST").
Proof.
  destruct (factory_build_error_or_endpoint parse_verbatim context_Background
              "POST" "/uppercase" "10.0.0.7:8080") as (Hadd & _ & _ & Hstr).
  split.
  - apply Hadd. simpl. intros [H|[H|[]]]; discriminate H.
  - apply Hstr; [simpl; auto | reflexivity].
Defined.

(** *** Closers *)

Section PoolClosers.

Variable factory : Factory.
Hypothesis factory_closer : forall instance, built_closer (factory instance) = None.

Lemma accept_instance_closer instance r :
  accept_instance factory instance = Some r -> releasable r = None.
Proof.
  unfold accept_instance. specialize (factory_closer instance).
  destruct (factory instance) as [[[e|] c] [err|]]; try discriminate.
  intros [= <-]. exact factory_closer.
Qed.

Lemma refresh_records_closer prev instances :
  Forall (fun r => releasable r = None) prev ->
  Forall (fun r => releasable r = None) (refresh_records factory prev instances).
Proof.
  intros Hprev. induction instances as [|i rest IH]; simpl; [constructor|].
  destruct (find (owned_by i) prev) as [r|] eqn:Hfind.
  - constructor; [|exact IH].
    apply find_some in Hfind as [Hin _].
    rewrite Forall_forall in Hprev. apply Hprev. now apply list_elem_of_In.
  - destruct (accept_instance factory i) as [r|] eqn:Haccept; [|exact IH].
    constructor; [|exact IH]. eapply accept_instance_closer; eassumption.
Qed.

Lemma omap_releasable_nil (l : list EndpointRecord) :
  Forall (fun r => releasable r = None) l -> omap releasable l = [].
Proof.
  induction 1 as [|r l Hr _ IH]; [reflexivity|].
  simpl. rewrite Hr. exact IH.
Qed.

Lemma released_nil prev instances :
  Forall (fun r => releasable r = None) prev -> released prev instances = [].
Proof.
  intros Hprev. unfold released. apply omap_releasable_nil.
  rewrite Forall_forall in Hprev |- *.
  intros r [_ Hin]%list_elem_of_filter. now apply Hprev.
Qed.

Lemma pool_after_releases_nothing notifications :
  forall prev,
    Forall (fun r => releasable r = None) prev ->
    snd (pool_after factory prev notifications) = [].
Proof.
  induction notifications as [|instances later IH]; intros prev Hprev;
    [reflexivity|].
  simpl. specialize (IH (refresh_records factory prev instances)
                        (refresh_records_closer prev instances Hprev)).
  destruct (pool_after factory (refresh_records factory prev instances) later)
    as [last closed'].
  simpl in *. subst closed'. rewrite released_nil by assumption. reflexivity.
Qed.

End PoolClosers.

(** C9. Both factories return a nil closer with every build, in particular
    with every successful one, so a pool fed by either factory never has a
    closer to release, whatever instances come and go. *)
Theorem factory_closer_is_nil :
  forall (url_Parse : string -> URL + error) (ctx : Context)
         (method path : string),
    (forall instance,
        built_closer (addsvcFactory url_Parse ctx method path instance) = None
        /\ built_closer (stringsvcFactory url_Parse ctx method path instance) = None)
    /\ (forall notifications,
           snd (pool_after (addsvcFactory url_Parse ctx method path) [] notifications) = []
           /\ snd (pool_after (stringsvcFactory url_Parse ctx method path) []
                     notifications) = []).
Proof.
  intros url_Parse ctx method path. split.
  - intros instance. split.
    + apply addsvcFactory_closer.
    + apply stringsvcFactory_closer.
  - intros notifications. split.
    + apply pool_after_releases_nothing; [|constructor].
      intros instance. apply addsvcFactory_closer.
    + apply pool_after_releases_nothing; [|constructor].
      intros instance. apply stringsvcFactory_closer.
Qed.

(** *** Scheme normalization *)

Lemma normalize_without_http instance :
  HasPrefix instance "http" = false -> normalize instance = "http://" +:+ instance.
Proof. intros H. unfold normalize. now rewrite H. Qed.

Lemma normalize_with_http instance :
  HasPrefix instance "http" = true -> normalize instance = instance.
Proof. intros H. unfold normalize. now rewrite H. Qed.

Lemma prefix_app_l (p q s : string) :
  String.prefix (p +:+ q) s = true -> String.prefix p s = true.
Proof.
  revert s. induction p as [|a p IH]; intros s.
  - intros _. now destruct s.
  - destruct s as [|b s]; [discriminate|].
    change (String.prefix (String a p +:+ q) (String b s))
      with (if Ascii.ascii_dec a b then String.prefix (p +:+ q) s else false).
    change (String.prefix (String a p) (String b s))
      with (if Ascii.ascii_dec a b then String.prefix p s else false).
    destruct (Ascii.ascii_dec a b); [apply IH|discriminate].
Qed.

(** An address that starts with a full scheme prefix starts with "http". *)
Lemma HasPrefix_scheme_http instance :
  HasPrefix instance "http://" = true \/ HasPrefix instance "https://" = true ->
  HasPrefix instance "http" = true.
Proof.
  unfold HasPrefix. intros [H|H].
  - exact (prefix_app_l "http" "://" instance H).
  - exact (prefix_app_l "http" "s://" instance H).
Qed.

Lemma addsvcFactory_target (url_Parse : string -> URL + error) ctx method path
    instance e :
  built_endpoint (addsvcFactory url_Parse ctx method path instance) = Some e ->
  exists tgt,
    url_Parse (normalize instance) = inl tgt /\ client_tgt e = set_Path tgt path.
Proof.
  unfold addsvcFactory.
  destruct (url_Parse (normalize instance)) as [tgt|err]; [|discriminate].
  intros H. exists tgt. split; [reflexivity|]. revert H.
  destruct (String.eqb path "/sum"); [now intros [= <-]|].
  destruct (String.eqb path "/concat"); [now intros [= <-]|discriminate].
Qed.

Lemma stringsvcFactory_target (url_Parse : string -> URL + error) ctx method path
    instance e :
  built_endpoint (stringsvcFactory url_Parse ctx method path instance) = Some e ->
  exists tgt,
    url_Parse (normalize instance) = inl tgt /\ client_tgt e = set_Path tgt path.
Proof.
  unfold stringsvcFactory.
  destruct (url_Parse (normalize instance)) as [tgt|err]; [|discriminate].
  intros H. exists tgt. split; [reflexivity|]. revert H.
  destruct (String.eqb path "/uppercase"); [now intros [= <-]|].
  destruct (String.eqb path "/count"); [now intros [= <-]|discriminate].
Qed.

(** C7. The claim holds of the addresses the guard recognizes as bare, such
    as "10.0.0.7:8080", which is parsed as "http://10.0.0.7:8080". At the
    address "httpd:8080", which carries no scheme either, the code departs
    from it: the guard tests for the letters "http", so the address is
    handed to the parser as it is, and whatever the parser, the endpoint's
    target is the parse of "httpd:8080", never of "http://httpd:8080". *)
Theorem factory_scheme_failing_input :
  has_scheme "10.0.0.7:8080" = false
  /\ normalize "10.0.0.7:8080" = "http://10.0.0.7:8080"
  /\ has_scheme "httpd:8080" = false
  /\ normalize "httpd:8080" = "httpd:8080"
  /\ normalize "httpd:8080" <> "http://httpd:8080"
  /\ built_endpoint
       (addsvcFactory parse_verbatim context_Background "POST" "/sum" "httpd:8080")
     = Some (NewClient "POST" (mkURL "" "httpd:8080" "" "/sum" "" "")
               addtransport_EncodeHTTPGenericRequest
               addtransport_DecodeHTTPSumResponse)
  /\ built_endpoint
       (stringsvcFactory parse_verbatim context_Background "POST" "/count"
          "httpd:8080")
     = Some (NewClient "POST" (mkURL "" "httpd:8080" "" "/count" "" "")
               stringsvc_EncodeRequest stringsvc_DecodeCountResponse)
  /\ forall (url_Parse : string -> URL + error) (ctx : Context)
            (method path : string) (e : Endpoint),
      built_endpoint (addsvcFactory url_Parse ctx method path "httpd:8080") = Some e
      \/ built_endpoint (stringsvcFactory url_Parse ctx method path "httpd:8080")
         = Some e ->
      exists tgt,
        url_Parse "httpd:8080" = inl tgt /\ client_tgt e = set_Path tgt path.
Proof.
  do 4 (split; [reflexivity|]). split; [discriminate|].
  do 2 (split; [reflexivity|]).
  intros url_Parse ctx method path e [H|H].
  - apply addsvcFactory_target in H as (tgt & Hparse & ->). exists tgt. auto.
  - apply stringsvcFactory_target in H as (tgt & Hparse & ->). exists tgt. auto.
Qed.

(** ** Start-up *)

Section StartUp.

Variable ConsulClient : Type.
Variable url_Parse : string -> URL + error.
Variable api_DefaultConfig : Config.
Variable api_NewClient : Config -> ConsulClient + error.
Variable errc : error.
Variable flags : Flags.

Let run := main ConsulClient url_Parse api_DefaultConfig api_NewClient errc flags.
Let ctx := context_Background.

(** The world [main] leaves behind once the registry client is built. *)
Lemma main_wires c :
  api_NewClient (consul_config api_DefaultConfig flags) = inl c ->
  run boot =
  (Continue tt,
   mkWorld
     [ Instancer "addsvc" [] true;
       Endpointer 0 (addsvcFactory url_Parse ctx "POST" "/sum");
       RoundRobin 1 0;
       RetryEndpoint (retryMax flags) (retryTimeout flags) 2;
       Endpointer 0 (addsvcFactory url_Parse ctx "POST" "/concat");
       RoundRobin 4 0;
       RetryEndpoint (retryMax flags) (retryTimeout flags) 5;
       Instancer "addstring" [] true;
       Endpointer 7 (stringsvcFactory url_Parse ctx "POST" "/uppercase");
       RoundRobin 8 0;
       RetryEndpoint (retryMax flags) (retryTimeout flags) 9;
       Endpointer 7 (stringsvcFactory url_Parse ctx "POST" "/count");
       RoundRobin 11 0;
       RetryEndpoint (retryMax flags) (retryTimeout flags) 12 ]
     [ ("/addsvc/sum",
        NewServer 3 addtransport_DecodeHTTPSumRequest
          addtransport_EncodeHTTPGenericResponse);
       ("/addsvc/concat",
        NewServer 6 addtransport_DecodeHTTPConcatRequest
          addtransport_EncodeHTTPGenericResponse);
       ("/stringsvc/uppercase",
        NewServer 10 stringsvc_DecodeUppercaseRequest stringsvc_EncodeResponse);
       ("/stringsvc/count",
        NewServer 13 stringsvc_DecodeUppercaseRequest stringsvc_EncodeResponse) ]
     [ EvSignalNotify;
       EvLog [VString "strtransport"; VString "HTTP"; VString "addr";
              VString (httpAddr flags)];
       EvListenAndServe (httpAddr flags);
       EvLog [VString "exit"; VError errc] ]).
Proof.
  intros Hc. unfold run, main, main_client, bind. rewrite Hc. reflexivity.
Qed.

Lemma main_exits err w :
  api_NewClient (consul_config api_DefaultConfig flags) = inr err ->
  run w =
  (Exited 1,
   mkWorld (heap w) (routes w) (events w ++ [EvLog [VString "err"; VError err]])).
Proof.
  intros Hc. unfold run, main, main_client, bind. rewrite Hc. reflexivity.
Qed.

(** [main] gets to the end only when the registry client was built. *)
Lemma main_served w :
  run boot = (Continue tt, w) ->
  exists c, api_NewClient (consul_config api_DefaultConfig flags) = inl c.
Proof.
  destruct (api_NewClient (consul_config api_DefaultConfig flags)) as [c|err] eqn:Hc.
  - eauto.
  - rewrite (main_exits err boot Hc). discriminate.
Qed.

End StartUp.

(** C8. If building the registry client fails at start-up, the process logs
    the error and exits with status 1 without registering a route or
    starting to listen; both [main] and the discovery package's [getClient]
    do so. *)
Theorem registry_client_failure_exits :
  forall (ConsulClient : Type) (url_Parse : string -> URL + error)
         (api_DefaultConfig : Config)
         (api_NewClient : Config -> ConsulClient + error)
         (errc : error) (ReadConfig_Consul : string) (flags : Flags)
         (w : World) (err : error),
    (api_NewClient (consul_config api_DefaultConfig flags) = inr err ->
     exists w',
       main ConsulClient url_Parse api_DefaultConfig api_NewClient errc flags w
       = (Exited 1, w')
       /\ events w' = events w ++ [EvLog [VString "err"; VError err]]
       /\ routes w' = routes w /\ heap w' = heap w
       /\ forall addr, In (EvListenAndServe addr) (events w') ->
                       In (EvListenAndServe addr) (events w))
    /\ (api_NewClient (set_Address api_DefaultConfig ReadConfig_Consul) = inr err ->
        exists w',
          getClient ConsulClient api_DefaultConfig api_NewClient ReadConfig_Consul w
          = (Exited 1, w')
          /\ events w' = events w ++ [EvLog [VString "err"; VError err]]
          /\ routes w' = routes w /\ heap w' = heap w).
Proof.
  intros ConsulClient url_Parse api_DefaultConfig api_NewClient errc
         ReadConfig_Consul flags w err.
  split.
  - intros Hc. eexists. split.
    + apply main_exits. exact Hc.
    + simpl. repeat split.
      intros addr Hin. apply in_app_or in Hin as [Hin|[Hin|[]]].
      * exact Hin.
      * discriminate Hin.
  - intros Hc. eexists. split.
    + unfold getClient, bind. rewrite Hc. reflexivity.
    + simpl. repeat split.
Qed.

Lemma registry_client_failure_exits_witness :
  (exists w',
      not_started = (Exited 1, w')
      /\ events w' = events boot ++ [EvLog [VString "err"; VError refused]]
      /\ routes w' = routes boot /\ heap w' = heap boot
      /\ forall addr, In (EvListenAndServe addr) (events w') ->
                      In (EvListenAndServe addr) (events boot))
  /\ exists w',
      getClient unit sample_config (fun _ => inr refused) "consul:8500" boot
      = (Exited 1, w')
      /\ events w' = events boot ++ [EvLog [VString "err"; VError refused]]
      /\ routes w' = routes boot /\ heap w' = heap boot.
Proof.
  destruct (registry_client_failure_exits unit parse_verbatim sample_config
              (fun _ => inr refused) (fmt_Errorf "%s" ["interrupt"]) "consul:8500"
              default_flags boot refused) as (Hmain & Hget).
  split.
  - exact (Hmain eq_refl).
  - exact (Hget eq_refl).
Defined.

(** ** Route bindings *)

(** C10. After start-up the /stringsvc/count route is bound to the same
    request decoder as the /stringsvc/uppercase route,
    [stringsvc.DecodeUppercaseRequest], so the two routes decode every
    inbound request to the same result. *)
Theorem count_route_decodes_as_uppercase :
  forall (ConsulClient : Type) (url_Parse : string -> URL + error)
         (api_DefaultConfig : Config)
         (api_NewClient : Config -> ConsulClient + error)
         (errc : error) (flags : Flags) (w : World),
    main ConsulClient url_Parse api_DefaultConfig api_NewClient errc flags boot
    = (Continue tt, w) ->
    srv_dec <$> route w "/stringsvc/count" = Some stringsvc_DecodeUppercaseRequest
    /\ srv_dec <$> route w "/stringsvc/uppercase"
       = Some stringsvc_DecodeUppercaseRequest
    /\ forall (Inbound Req : Type)
              (decode : DecodeRequestFunc -> Inbound -> Req + error) (r : Inbound),
        route_decode decode w "/stringsvc/count" r
        = Some (decode stringsvc_DecodeUppercaseRequest r)
        /\ route_decode decode w "/stringsvc/count" r
           = route_decode decode w "/stringsvc/uppercase" r.
Proof.
  intros ConsulClient url_Parse api_DefaultConfig api_NewClient errc flags w Hrun.
  destruct (main_served _ _ _ _ _ _ _ Hrun) as [c Hc].
  rewrite (main_wires _ url_Parse _ _ errc _ c Hc) in Hrun.
  injection Hrun as <-.
  split; [reflexivity|]. split; [reflexivity|].
  intros Inbound Req decode r. split; reflexivity.
Qed.

Lemma count_route_decodes_as_uppercase_witness :
  srv_dec <$> route (snd started) "/stringsvc/count"
  = Some stringsvc_DecodeUppercaseRequest
  /\ srv_dec <$> route (snd started) "/stringsvc/uppercase"
     = Some stringsvc_DecodeUppercaseRequest
  /\ forall (Inbound Req : Type)
            (decode : DecodeRequestFunc -> Inbound -> Req + error) (r : Inbound),
      route_decode decode (snd started) "/stringsvc/count" r
      = Some (decode stringsvc_DecodeUppercaseRequest r)
      /\ route_decode decode (snd started) "/stringsvc/count" r
         = route_decode decode (snd started) "/stringsvc/uppercase" r.
Proof.
  apply (count_route_decodes_as_uppercase unit parse_verbatim sample_config
           (fun _ => inl tt) (fmt_Errorf "%s" ["interrupt"]) default_flags
           (snd started)).
  vm_compute. reflexivity.
Defined.

(** A [Select] through one balancer object leaves every other balancer's
    cursor as it was. *)
Lemma balancer_Select_other healthy b b' w :
  b <> b' ->
  balancer_cursor (snd (balancer_Select healthy b w)) b' = balancer_cursor w b'.
Proof.
  intros Hne. unfold balancer_Select.
  destruct (heap w !! b) as [[| |ep c|]|] eqn:Hb; try reflexivity.
  destruct (Select (endpointer_snapshot healthy w ep) c) as [r c'].
  unfold balancer_cursor. simpl. now rewrite list_lookup_insert_ne.
Qed.

(** C5, as the claim states it, fails: after start-up the sum and concat
    routes of "addsvc" go through two balancers over two endpointers, and a
    [Select] for the sum route advances the sum balancer's cursor only. *)
Lemma routes_share_balancer_counterexample :
  fst started = Continue tt
  /\ route_balancer (snd started) "/addsvc/sum" = Some 2
  /\ route_balancer (snd started) "/addsvc/concat" = Some 5
  /\ route_endpointer (snd started) "/addsvc/sum" = Some 1
  /\ route_endpointer (snd started) "/addsvc/concat" = Some 4
  /\ route_cursor (snd (route_Select one_instance "/addsvc/sum" (snd started)))
       "/addsvc/sum" = Some 1
  /\ route_cursor (snd (route_Select one_instance "/addsvc/sum" (snd started)))
       "/addsvc/concat" = Some 0.
Proof. vm_compute. repeat split. Qed.

(** C5, amended. For each downstream service there is exactly one instancer,
    shared by that service's routes, while every route has an endpointer, a
    balancer and a retry endpoint of its own, built from its own factory;
    in particular the sum and concat bindings of "addsvc" select through
    different balancers over different endpointers fed by the same
    instancer, so a [Select] for one of them leaves the other's round-robin
    cursor where it was. *)
Theorem routes_share_instancer_only :
  forall (ConsulClient : Type) (url_Parse : string -> URL + error)
         (api_DefaultConfig : Config)
         (api_NewClient : Config -> ConsulClient + error)
         (errc : error) (flags : Flags) (w : World),
    main ConsulClient url_Parse api_DefaultConfig api_NewClient errc flags boot
    = (Continue tt, w) ->
    watched w = ["addsvc"; "addstring"]
    /\ (exists i,
        route_instancer w "/addsvc/sum" = Some i
        /\ route_instancer w "/addsvc/concat" = Some i
        /\ instancer_service w i = Some "addsvc")
    /\ (exists i,
           route_instancer w "/stringsvc/uppercase" = Some i
           /\ route_instancer w "/stringsvc/count" = Some i
           /\ instancer_service w i = Some "addstring")
    /\ (forall p q,
           In p ["/addsvc/sum"; "/addsvc/concat";
                 "/stringsvc/uppercase"; "/stringsvc/count"] ->
           In q ["/addsvc/sum"; "/addsvc/concat";
                 "/stringsvc/uppercase"; "/stringsvc/count"] ->
           p <> q ->
           is_Some (route_balancer w p)
           /\ route_retry w p <> route_retry w q
           /\ route_balancer w p <> route_balancer w q
           /\ route_endpointer w p <> route_endpointer w q
           /\ forall healthy,
               route_cursor (snd (route_Select healthy p w)) q = route_cursor w q)
    /\ (forall healthy ep,
           route_endpointer w "/addsvc/sum" = Some ep ->
           endpointer_snapshot healthy w ep <> [] ->
           route_cursor (snd (route_Select healthy "/addsvc/sum" w)) "/addsvc/sum"
           = Some 1
           /\ route_cursor (snd (route_Select healthy "/addsvc/sum" w))
                "/addsvc/concat" = Some 0).
Proof.
  intros ConsulClient url_Parse api_DefaultConfig api_NewClient errc flags w Hrun.
  destruct (main_served _ _ _ _ _ _ _ Hrun) as [c Hc].
  rewrite (main_wires _ url_Parse _ _ errc _ c Hc) in Hrun.
  injection Hrun as <-.
  split; [reflexivity|].
  split; [exists 0; repeat split|]. split; [exists 7; repeat split|]. split.
  - intros p q Hp Hq Hne.
    simpl in Hp, Hq.
    repeat match goal with
           | H : _ \/ _ |- _ => destruct H as [H|H]
           | H : False |- _ => destruct H
           end; subst p q; try congruence;
      (split; [eexists; reflexivity|]);
      (split; [discriminate|]); (split; [discriminate|]); (split; [discriminate|]);
      intros healthy; unfold route_Select, balancer_Select; cbn;
      match goal with
      | |- context [Select ?s ?k] => destruct (Select s k)
      end; reflexivity.
  - intros healthy ep [= <-] Hpool.
    unfold route_Select, balancer_Select. cbn.
    unfold endpointer_snapshot in Hpool. cbn in Hpool.
    unfold Select.
    destruct (refresh_records (addsvcFactory url_Parse context_Background "POST" "/sum")
                [] (healthy "addsvc")) as [|r rs]; [congruence|].
    split; reflexivity.
Qed.

Lemma routes_share_instancer_only_witness :
  (exists i,
      route_instancer (snd started) "/addsvc/sum" = Some i
      /\ route_instancer (snd started) "/addsvc/concat" = Some i
      /\ instancer_service (snd started) i = Some "addsvc")
  /\ route_balancer (snd started) "/addsvc/sum"
     <> route_balancer (snd started) "/addsvc/concat"
  /\ route_cursor (snd (route_Select one_instance "/addsvc/sum" (snd started)))
       "/addsvc/sum" = Some 1
  /\ route_cursor (snd (route_Select one_instance "/addsvc/sum" (snd started)))
       "/addsvc/concat" = Some 0.
Proof.
  assert (main unit parse_verbatim sample_config (fun _ => inl tt)
            (fmt_Errorf "%s" ["interrupt"]) default_flags boot
          = (Continue tt, snd started)) as Hrun.
  { vm_compute. reflexivity. }
  destruct (routes_share_instancer_only unit parse_verbatim sample_config
              (fun _ => inl tt) (fmt_Errorf "%s" ["interrupt"]) default_flags
              (snd started) Hrun) as (_ & Hadd & _ & Hsplit & Hcursor).
  split; [exact Hadd|]. split.
  - apply (Hsplit "/addsvc/sum" "/addsvc/concat").
    + simpl. auto.
    + simpl. auto.
    + discriminate.
  - apply (Hcursor one_instance 1).
    + vm_compute. reflexivity.
    + vm_compute. discriminate.
Defined.

(** ** The round-robin balancer *)

Section RoundRobinFacts.

Context {E : Type}.
Implicit Types (pool : list E) (c n : nat).

Lemma Select_empty c : Select ([] : list E) c = (inl NoEndpoints, c).
Proof. reflexivity. Qed.

Lemma Select_pick e0 pool c :
  Select (e0 :: pool) c
  = (inr (nth (c mod length (e0 :: pool)) (e0 :: pool) e0), S c).
Proof. reflexivity. Qed.

(** The endpoint [Select] returns belongs to the snapshot it was given. *)
Lemma Select_In pool c e c' : Select pool c = (inr e, c') -> In e pool.
Proof.
  destruct pool as [|e0 pool]; [discriminate|].
  assert (In (nth (c mod length (e0 :: pool)) (e0 :: pool) e0) (e0 :: pool)) as Hin.
  { apply nth_In. apply Nat.mod_upper_bound. discriminate. }
  rewrite Select_pick. intros H. injection H as H _. rewrite <- H. exact Hin.
Qed.

Lemma Select_cursor pool c r c' :
  Select pool c = (r, c') ->
  c' = match r with inl _ => c | inr _ => S c end.
Proof.
  destruct pool as [|e0 pool].
  - now intros [= <- <-].
  - rewrite Select_pick. intros H. injection H as <- <-. reflexivity.
Qed.

(** The calls of [select_n] on a pool that is not empty, one by one. *)
Lemma select_n_picks e0 pool n c :
  select_n n (e0 :: pool) c
  = ((fun i => inr (nth ((c + i) mod length (e0 :: pool)) (e0 :: pool) e0))
       <$> seq 0 n,
     c + n).
Proof.
  revert c. induction n as [|n IH]; intros c.
  - simpl. now rewrite Nat.add_0_r.
  - cbn [select_n]. rewrite Select_pick, IH.
    rewrite <- cons_seq, <- fmap_S_seq, fmap_cons, <- list_fmap_compose.
    rewrite Nat.add_0_r. apply (f_equal2 pair); [|lia].
    apply (f_equal2 cons); [reflexivity|].
    apply list_fmap_ext. intros _ i _. unfold compose.
    now replace (S c + i) with (c + S i) by lia.
Qed.

Lemma select_n_empty n c :
  select_n n ([] : list E) c = (replicate n (inl NoEndpoints), c).
Proof.
  revert c. induction n as [|n IH]; intros c; [reflexivity|].
  cbn [select_n]. rewrite Select_empty, IH. reflexivity.
Qed.

Lemma rotate_nat_add_mod base offset len :
  rotate_nat_add base offset len = (base + offset) mod len.
Proof.
  unfold rotate_nat_add.
  now rewrite <- Nat2Z.inj_add, <- Nat2Z.inj_mod, Nat2Z.id.
Qed.

(** A full round over the pool is the pool rotated by the cursor. *)
Lemma full_round_rotate e0 pool c :
  (fun i => nth ((c + i) mod length (e0 :: pool)) (e0 :: pool) e0)
    <$> seq 0 (length (e0 :: pool))
  = rotate c (e0 :: pool).
Proof.
  set (l := e0 :: pool). assert (0 < length l) as Hlen by (simpl; lia).
  apply list_eq. intros i. rewrite list_lookup_fmap.
  destruct (decide (i < length l)) as [Hi|Hi].
  - rewrite lookup_seq_lt by exact Hi. simpl.
    rewrite lookup_rotate_r by exact Hi. rewrite rotate_nat_add_mod.
    destruct (nth_lookup_or_length l ((c + i) mod length l) e0) as [->|Hge];
      [reflexivity|].
    pose proof (Nat.mod_upper_bound (c + i) (length l)). lia.
  - rewrite (lookup_ge_None_2 (seq 0 (length l))) by (rewrite length_seq; lia).
    simpl. symmetry. apply lookup_ge_None_2. rewrite length_rotate. lia.
Qed.

Lemma rotate_Permutation pool c : Permutation (rotate c pool) pool.
Proof.
  unfold rotate. rewrite Permutation_app_comm. now rewrite take_drop.
Qed.

Lemma Select_period pool c :
  fst (Select pool (c + length pool)) = fst (Select pool c).
Proof.
  destruct pool as [|e0 pool]; [reflexivity|].
  rewrite !Select_pick. cbn [fst]. do 2 f_equal.
  rewrite <- (Nat.mul_1_l (length (e0 :: pool))) at 1.
  apply Nat.Div0.mod_add.
Qed.

End RoundRobinFacts.

(** C2. Over a static pool of N endpoints, N consecutive [Select] calls on
    one round-robin balancer return the pool rotated by the cursor, hence
    each endpoint exactly once in a fixed cyclic order, and the call after
    them returns what the first returned; on the pool [A, B, C] six calls of
    a new balancer return A, B, C, A, B, C. *)
Theorem round_robin_cycles :
  forall (E : Type) (pool : list E) (c : nat),
    fst (select_n (length pool) pool c) = inr <$> rotate c pool
    /\ Permutation (rotate c pool) pool
    /\ snd (select_n (length pool) pool c) = c + length pool
    /\ fst (Select pool (snd (select_n (length pool) pool c))) = fst (Select pool c)
    /\ fst (select_n (S (length pool)) pool c)
       = fst (select_n (length pool) pool c) ++ [fst (Select pool c)]
    /\ fst (select_n 6 ["A"; "B"; "C"] 0)
       = inr <$> ["A"; "B"; "C"; "A"; "B"; "C"].
Proof.
  intros E pool c.
  destruct pool as [|e0 pool].
  { split; [unfold rotate; now rewrite drop_nil, take_nil|].
    split; [apply rotate_Permutation|].
    split; [simpl; lia|]. repeat split. }
  set (l := e0 :: pool).
  assert (fst (select_n (length l) l c) = inr <$> rotate c l) as Hround.
  { unfold l. rewrite select_n_picks. cbn [fst].
    rewrite <- full_round_rotate, <- list_fmap_compose. reflexivity. }
  split; [exact Hround|]. split; [apply rotate_Permutation|].
  split; [unfold l; now rewrite select_n_picks|].
  split; [unfold l; rewrite select_n_picks; apply Select_period|].
  split; [|reflexivity].
  rewrite <- (Select_period l c). unfold l.
  rewrite !select_n_picks, Select_pick. cbn [fst].
  rewrite seq_S, fmap_app. reflexivity.
Qed.

(** ** The retry loop *)

Section RetryFacts.

Context {E R : Type}.
Variable Current : nat -> list E.
Variable transport : nat -> E -> @Reply R.
Variable budget : nat.

(** An empty snapshot ends the loop where it stands. *)
Lemma retry_loop_empty more st :
  Current (clock st) = [] -> retry_loop Current transport budget more st = mkCallReport (inl NoEndpointsError) st.
Proof.
  intros Hempty. destruct more; simpl; rewrite Hempty; now destruct st.
Qed.

(** One iteration on a snapshot that is not empty, case by case. *)
Lemma retry_loop_canceled more st e c' :
  Select (Current (clock st)) (cursor st) = (inr e, c') ->
  budget - clock st < took (transport (clock st) e) ->
  retry_loop Current transport budget more st
  = mkCallReport (inl CanceledError)
      (mkCallState (S (made st)) budget c' (selections st ++ [(clock st, e)])).
Proof.
  intros Hsel Hlate%Nat.ltb_lt. destruct more; simpl; now rewrite Hsel, Hlate.
Qed.

Lemma retry_loop_succeeded more st e c' response :
  Select (Current (clock st)) (cursor st) = (inr e, c') ->
  took (transport (clock st) e) <= budget - clock st ->
  outcome (transport (clock st) e) = Succeeded response ->
  retry_loop Current transport budget more st
  = mkCallReport (inr response)
      (mkCallState (S (made st)) (clock st + took (transport (clock st) e)) c'
         (selections st ++ [(clock st, e)])).
Proof.
  intros Hsel Hfit Hout. apply Nat.ltb_ge in Hfit.
  destruct more; simpl; now rewrite Hsel, Hfit, Hout.
Qed.

Lemma retry_loop_exhausted st e c' err :
  Select (Current (clock st)) (cursor st) = (inr e, c') ->
  took (transport (clock st) e) <= budget - clock st ->
  outcome (transport (clock st) e) = Failed err ->
  retry_loop Current transport budget 0 st
  = mkCallReport (inl (RetryExhaustedError err))
      (mkCallState (S (made st)) (clock st + took (transport (clock st) e)) c'
         (selections st ++ [(clock st, e)])).
Proof.
  intros Hsel Hfit Hout. apply Nat.ltb_ge in Hfit.
  simpl. now rewrite Hsel, Hfit, Hout.
Qed.

Lemma retry_loop_out_of_time more st e c' err :
  Select (Current (clock st)) (cursor st) = (inr e, c') ->
  took (transport (clock st) e) <= budget - clock st ->
  outcome (transport (clock st) e) = Failed err ->
  budget <= clock st + took (transport (clock st) e) ->
  retry_loop Current transport budget more st
  = mkCallReport (inl (RetryExhaustedError err))
      (mkCallState (S (made st)) (clock st + took (transport (clock st) e)) c'
         (selections st ++ [(clock st, e)])).
Proof.
  intros Hsel Hfit Hout Hend. apply Nat.ltb_ge in Hfit. apply Nat.leb_le in Hend.
  destruct more; simpl; rewrite Hsel, Hfit, Hout; [reflexivity|].
  now rewrite Hend.
Qed.

Lemma retry_loop_again more st e c' err :
  Select (Current (clock st)) (cursor st) = (inr e, c') ->
  took (transport (clock st) e) <= budget - clock st ->
  outcome (transport (clock st) e) = Failed err ->
  clock st + took (transport (clock st) e) < budget ->
  retry_loop Current transport budget (S more) st
  = retry_loop Current transport budget more
      (mkCallState (S (made st)) (clock st + took (transport (clock st) e)) c'
         (selections st ++ [(clock st, e)])).
Proof.
  intros Hsel Hfit Hout Hleft. apply Nat.ltb_ge in Hfit.
  apply Nat.leb_gt in Hleft.
  simpl. now rewrite Hsel, Hfit, Hout, Hleft.
Qed.

(** What can be said of every iteration: it ends the call, on an empty
    snapshot or after one more attempt, or it goes on with one more attempt
    on the books and time left. *)
Lemma retry_loop_iteration more st :
  clock st <= budget ->
  (Current (clock st) = []
   /\ retry_loop Current transport budget more st = mkCallReport (inl NoEndpointsError) st)
  \/ (exists e c' r clock',
         Select (Current (clock st)) (cursor st) = (inr e, c')
         /\ clock' <= budget
         /\ retry_loop Current transport budget more st
            = mkCallReport r
                (mkCallState (S (made st)) clock' c'
                   (selections st ++ [(clock st, e)])))
  \/ (exists e c' err more',
         more = S more'
         /\ Select (Current (clock st)) (cursor st) = (inr e, c')
         /\ outcome (transport (clock st) e) = Failed err
         /\ clock st + took (transport (clock st) e) < budget
         /\ retry_loop Current transport budget more st
            = retry_loop Current transport budget more'
                (mkCallState (S (made st))
                   (clock st + took (transport (clock st) e)) c'
                   (selections st ++ [(clock st, e)]))).
Proof.
  intros Hclock.
  destruct (Select (Current (clock st)) (cursor st)) as [[[]|e] c'] eqn:Hsel.
  - left. assert (Current (clock st) = []) as Hempty.
    { destruct (Current (clock st)); [reflexivity|discriminate]. }
    split; [exact Hempty|]. now apply retry_loop_empty.
  - right.
    destruct (Nat.lt_ge_cases (budget - clock st) (took (transport (clock st) e)))
      as [Hlate|Hfit].
    { left. exists e, c'. do 2 eexists. split; [reflexivity|]. split;
        [|apply (retry_loop_canceled more st e c' Hsel Hlate)]. lia. }
    destruct (outcome (transport (clock st) e)) as [response|err] eqn:Hout.
    { left. exists e, c'. do 2 eexists. split; [reflexivity|]. split;
        [|apply (retry_loop_succeeded more st e c' response Hsel Hfit Hout)]. lia. }
    destruct (Nat.lt_ge_cases (clock st + took (transport (clock st) e)) budget)
      as [Hleft|Hend].
    + destruct more as [|more'].
      * left. exists e, c'. do 2 eexists. split; [reflexivity|]. split;
          [|apply (retry_loop_exhausted st e c' err Hsel Hfit Hout)]. lia.
      * right. exists e, c', err, more'. repeat split; try assumption.
        apply (retry_loop_again more' st e c' err Hsel Hfit Hout Hleft).
    + left. exists e, c'. do 2 eexists. split; [reflexivity|]. split;
        [|apply (retry_loop_out_of_time more st e c' err Hsel Hfit Hout Hend)]. lia.
Qed.

Lemma Select_some (st : @CallState E) :
  Current (clock st) <> [] ->
  exists e c', Select (Current (clock st)) (cursor st) = (inr e, c').
Proof.
  intros Hpool. destruct (Current (clock st)) as [|e0 pool]; [congruence|].
  rewrite Select_pick. eauto.
Qed.

(** The loop never makes more attempts than it was allowed and never runs
    past the budget. *)
Lemma retry_loop_bounds more st :
  clock st <= budget ->
  made (final (retry_loop Current transport budget more st)) <= made st + S more
  /\ clock (final (retry_loop Current transport budget more st)) <= budget.
Proof.
  revert st. induction more as [|more IH]; intros st Hclock.
  - destruct (retry_loop_iteration 0 st Hclock)
      as [[_ ->]|[(e & c' & r & clock' & _ & Hle & ->)|(e & c' & err & more' & Hm & _)]];
      simpl; lia.
  - destruct (retry_loop_iteration (S more) st Hclock)
      as [[_ ->]|[(e & c' & r & clock' & _ & Hle & ->)
                 |(e & c' & err & more' & Hm & _ & _ & Hleft & ->)]];
      simpl; try lia.
    injection Hm as <-.
    specialize (IH (mkCallState (S (made st))
                      (clock st + took (transport (clock st) e)) c'
                      (selections st ++ [(clock st, e)]))).
    simpl in IH. lia.
Qed.

(** Every selection the loop records was made from the snapshot current at
    its time, by the cursor as it stood. *)
Lemma from_current_snoc c0 trace now e c' :
  from_current Current c0 trace ->
  Select (Current now) (c0 + length trace) = (inr e, c') ->
  from_current Current c0 (trace ++ [(now, e)]).
Proof.
  intros Htrace Hsel k now' e' Hk.
  apply lookup_snoc_Some in Hk as [[_ Hk]|[-> [= -> ->]]].
  - now apply Htrace.
  - now rewrite Hsel.
Qed.

Lemma retry_loop_from_current c0 more st :
  clock st <= budget ->
  cursor st = c0 + length (selections st) ->
  from_current Current c0 (selections st) ->
  from_current Current c0 (selections (final (retry_loop Current transport budget more st))).
Proof.
  revert st. induction more as [|more IH]; intros st Hclock Hcur Htrace.
  - destruct (retry_loop_iteration 0 st Hclock)
      as [[_ ->]|[(e & c' & r & clock' & Hsel & _ & ->)
                 |(e & c' & err & more' & Hm & _)]];
      simpl; [exact Htrace| |discriminate Hm].
    rewrite Hcur in Hsel. eapply from_current_snoc; eassumption.
  - destruct (retry_loop_iteration (S more) st Hclock)
      as [[_ ->]|[(e & c' & r & clock' & Hsel & _ & ->)
                 |(e & c' & err & more' & Hm & Hsel & _ & Hleft & ->)]];
      simpl; [exact Htrace| |].
    + rewrite Hcur in Hsel. eapply from_current_snoc; eassumption.
    + injection Hm as <-. apply IH; simpl.
      * lia.
      * rewrite (Select_cursor _ _ _ _ Hsel), Hcur, length_app. simpl. lia.
      * rewrite Hcur in Hsel. eapply from_current_snoc; eassumption.
Qed.

(** When the pool is never empty, every endpoint fails and the attempts
    are short enough, the loop uses all the attempts it was allowed. *)
Lemma retry_loop_all_fail d more st :
  (forall now, Current now <> []) ->
  (forall now e, exists err, outcome (transport now e) = Failed err) ->
  (forall now e, took (transport now e) <= d) ->
  clock st + S more * d < budget ->
  made (final (retry_loop Current transport budget more st)) = made st + S more
  /\ length (selections (final (retry_loop Current transport budget more st)))
     = length (selections st) + S more
  /\ exists now e err,
      last (selections (final (retry_loop Current transport budget more st)))
      = Some (now, e)
      /\ outcome (transport now e) = Failed err
      /\ result (retry_loop Current transport budget more st)
         = inl (RetryExhaustedError err).
Proof.
  intros Hpool Hfail Hshort. revert st.
  induction more as [|more IH]; intros st Hleft.
  - destruct (Select_some st (Hpool _)) as (e & c' & Hsel).
    destruct (Hfail (clock st) e) as [err Hout].
    pose proof (Hshort (clock st) e) as Hd.
    rewrite (retry_loop_exhausted st e c' err Hsel) by (assumption || lia).
    simpl. rewrite length_app, last_snoc. simpl.
    split; [lia|]. split; [lia|]. exists (clock st), e, err. auto.
  - destruct (Select_some st (Hpool _)) as (e & c' & Hsel).
    destruct (Hfail (clock st) e) as [err Hout].
    pose proof (Hshort (clock st) e) as Hd.
    rewrite (retry_loop_again more st e c' err Hsel) by (assumption || lia).
    destruct (IH (mkCallState (S (made st))
                    (clock st + took (transport (clock st) e)) c'
                    (selections st ++ [(clock st, e)])))
      as (Hmade & Hlen & Hlast).
    { simpl in *. lia. }
    simpl in Hmade, Hlen. rewrite length_app in Hlen. simpl in Hlen.
    split; [lia|]. split; [lia|]. exact Hlast.
Qed.

End RetryFacts.

(** C1, as the claim states it, fails: with maxAttempts 3 and a budget of 10,
    endpoints that always fail after 5 time units leave room for two
    attempts only, and the call ends with RetryExhausted after the second;
    when they fail after 6 time units the second attempt is canceled by the
    deadline. In both runs every endpoint fails with a TransportError and the
    pool is never empty, yet fewer than 3 attempts are made. On an empty
    pool no endpoint is selected and no attempt is made at all. *)
Lemma invoke_exactly_max_counterexample :
  (forall d now e, outcome (always_failing d now e) = Failed ConnectionRefused)
  /\ attempts (Invoke (static_pool ["A"]) (always_failing 5) (mkRetryPolicy 3 10) 0)
     = 2
  /\ result (Invoke (static_pool ["A"]) (always_failing 5) (mkRetryPolicy 3 10) 0)
     = inl (RetryExhaustedError ConnectionRefused)
  /\ attempts (Invoke (static_pool ["A"]) (always_failing 6) (mkRetryPolicy 3 10) 0)
     = 2
  /\ result (Invoke (static_pool ["A"]) (always_failing 6) (mkRetryPolicy 3 10) 0)
     = inl CanceledError
  /\ attempts (Invoke (static_pool []) (always_failing 1) (mkRetryPolicy 3 10) 0)
     = 0
  /\ result (Invoke (static_pool []) (always_failing 1) (mkRetryPolicy 3 10) 0)
     = inl NoEndpointsError.
Proof. split; [reflexivity|]. vm_compute. repeat split. Qed.

(** C1, amended. For every RetryPolicy with maxAttempts m and timeoutBudget
    t, [Invoke] makes at most m attempts and runs for at most t; when the
    pool is never empty, every endpoint fails with a TransportError and the
    attempts are short enough for m of them to end before t, it performs
    exactly m selections and attempts and returns RetryExhausted wrapping
    the failure of the last, m-th, attempt. *)
Theorem invoke_bounded_and_exhausted :
  forall (E R : Type) (Current : nat -> list E) (transport : nat -> E -> @Reply R)
         (policy : RetryPolicy) (c : nat),
    (attempts (Invoke Current transport policy c) <= Pos.to_nat (maxAttempts policy)
     /\ elapsed (Invoke Current transport policy c) <= timeoutBudget policy)
    /\ forall d,
        (forall now, Current now <> []) ->
        (forall now e, exists err, outcome (transport now e) = Failed err) ->
        (forall now e, took (transport now e) <= d) ->
        Pos.to_nat (maxAttempts policy) * d < timeoutBudget policy ->
        attempts (Invoke Current transport policy c) = Pos.to_nat (maxAttempts policy)
        /\ length (selected (Invoke Current transport policy c))
           = Pos.to_nat (maxAttempts policy)
        /\ exists now e err,
            last (selected (Invoke Current transport policy c)) = Some (now, e)
            /\ outcome (transport now e) = Failed err
            /\ result (Invoke Current transport policy c)
               = inl (RetryExhaustedError err).
Proof.
  intros E R Current transport policy c.
  pose proof (Pos2Nat.is_pos (maxAttempts policy)) as Hpos.
  unfold attempts, elapsed, selected, Invoke. split.
  - destruct (retry_loop_bounds Current transport (timeoutBudget policy)
                (Pos.to_nat (maxAttempts policy) - 1) (mkCallState 0 0 c []))
      as [Hmade Hclock]; simpl in *; lia.
  - intros d Hpool Hfail Hshort Hroom.
    destruct (retry_loop_all_fail Current transport (timeoutBudget policy) d
                (Pos.to_nat (maxAttempts policy) - 1) (mkCallState 0 0 c [])
                Hpool Hfail Hshort)
      as (Hmade & Hlen & Hlast).
    { cbn [clock]. replace (S (Pos.to_nat (maxAttempts policy) - 1))
        with (Pos.to_nat (maxAttempts policy)) by lia. exact Hroom. }
    simpl in Hmade, Hlen. split; [lia|]. split; [lia|]. exact Hlast.
Qed.

Lemma invoke_bounded_and_exhausted_witness :
  attempts (Invoke (static_pool ["A"; "B"; "C"]) (always_failing 1)
              (mkRetryPolicy 3 10) 0) = 3
  /\ length (selected (Invoke (static_pool ["A"; "B"; "C"]) (always_failing 1)
                         (mkRetryPolicy 3 10) 0)) = 3
  /\ exists now e err,
      last (selected (Invoke (static_pool ["A"; "B"; "C"]) (always_failing 1)
                        (mkRetryPolicy 3 10) 0)) = Some (now, e)
      /\ outcome (always_failing 1 now e) = Failed err
      /\ result (Invoke (static_pool ["A"; "B"; "C"]) (always_failing 1)
                   (mkRetryPolicy 3 10) 0)
         = inl (RetryExhaustedError err).
Proof.
  apply (invoke_bounded_and_exhausted string string (static_pool ["A"; "B"; "C"])
           (always_failing 1) (mkRetryPolicy 3 10) 0) with (d := 1).
  - intros now. discriminate.
  - intros now e. exists ConnectionRefused. reflexivity.
  - intros now e. simpl. lia.
  - vm_compute. lia.
Defined.

(** C3. [Select] on an empty snapshot fails with NoEndpoints and leaves the
    cursor alone, and an [Invoke] that finds the pool empty returns
    NoEndpointsError at once: at the first selection with no attempt made
    and no time elapsed, at a later one with nothing added to the attempts
    and the time already spent. *)
Theorem empty_pool_returns_at_once :
  forall (E R : Type) (Current : nat -> list E) (transport : nat -> E -> @Reply R)
         (policy : RetryPolicy) (c : nat),
    Select ([] : list E) c = (inl NoEndpoints, c)
    /\ (Current 0 = [] ->
        result (Invoke Current transport policy c) = inl NoEndpointsError
        /\ attempts (Invoke Current transport policy c) = 0
        /\ elapsed (Invoke Current transport policy c) = 0
        /\ selected (Invoke Current transport policy c) = []
        /\ cursor (final (Invoke Current transport policy c)) = c)
    /\ (forall budget more st,
           Current (clock st) = [] ->
           retry_loop Current transport budget more st
           = mkCallReport (inl NoEndpointsError) st).
Proof.
  intros E R Current transport policy c.
  split; [reflexivity|]. split.
  - intros Hempty. unfold attempts, elapsed, selected, Invoke.
    rewrite retry_loop_empty by exact Hempty. repeat split.
  - intros budget more st Hempty. now apply retry_loop_empty.
Qed.

Lemma empty_pool_returns_at_once_witness :
  result (Invoke (static_pool []) (always_failing 1) (mkRetryPolicy 3 10) 7)
  = inl NoEndpointsError
  /\ attempts (Invoke (static_pool []) (always_failing 1) (mkRetryPolicy 3 10) 7) = 0
  /\ elapsed (Invoke (static_pool []) (always_failing 1) (mkRetryPolicy 3 10) 7) = 0
  /\ selected (Invoke (static_pool []) (always_failing 1) (mkRetryPolicy 3 10) 7) = []
  /\ cursor (final (Invoke (static_pool []) (always_failing 1)
                      (mkRetryPolicy 3 10) 7)) = 7.
Proof.
  apply (empty_pool_returns_at_once string string (static_pool [])
           (always_failing 1) (mkRetryPolicy 3 10) 7).
  reflexivity.
Defined.

(** C4. Within one [Invoke], every iteration selects from the snapshot the
    pool publishes at the time of that iteration: the k-th selection is what
    [Select] returns on that snapshot. So once a refresh has removed an
    endpoint B for good, no later iteration selects B; when the pool
    [A, B] becomes [A, C] at time 5, the selections at times 0, 5 and 10
    are A, C and A, where the snapshot of the call's start would have
    given B for the second. *)
Theorem retry_reads_current_snapshot :
  forall (E R : Type) (Current : nat -> list E) (transport : nat -> E -> @Reply R)
         (policy : RetryPolicy) (c : nat),
    from_current Current c (selected (Invoke Current transport policy c))
    /\ (forall now e,
           In (now, e) (selected (Invoke Current transport policy c)) ->
           In e (Current now))
    /\ (forall B refreshed,
           (forall now, refreshed <= now -> ~ In B (Current now)) ->
           forall now e,
             In (now, e) (selected (Invoke Current transport policy c)) ->
             refreshed <= now -> e <> B)
    /\ selected (Invoke churning_pool (always_failing 5) (mkRetryPolicy 3 100) 0)
       = [(0, "A"); (5, "C"); (10, "A")]
    /\ fst (Select (churning_pool 0) 1) = inr "B".
Proof.
  intros E R Current transport policy c.
  assert (from_current Current c (selected (Invoke Current transport policy c)))
    as Htrace.
  { unfold selected, Invoke. apply retry_loop_from_current; simpl.
    - lia.
    - lia.
    - intros k now e Hk. discriminate Hk. }
  assert (forall now e,
             In (now, e) (selected (Invoke Current transport policy c)) ->
             In e (Current now)) as Hin.
  { intros now e [k Hk]%list_elem_of_In%list_elem_of_lookup.
    apply Htrace in Hk.
    destruct (Select (Current now) (c + k)) as [r c'] eqn:Hsel.
    simpl in Hk. subst r. eapply Select_In. exact Hsel. }
  split; [exact Htrace|]. split; [exact Hin|]. split.
  - intros B refreshed Hgone now e Hsel Hlate ->.
    apply (Hgone now Hlate). now apply Hin.
  - split; vm_compute; reflexivity.
Qed.

Lemma retry_reads_current_snapshot_witness :
  (forall now, 5 <= now -> ~ In "B" (churning_pool now))
  /\ In (5, "C")
       (selected (Invoke churning_pool (always_failing 5) (mkRetryPolicy 3 100) 0))
  /\ "C" <> "B".
Proof.
  assert (forall now, 5 <= now -> ~ In "B" (churning_pool now)) as Hgone.
  { intros now Hlate. unfold churning_pool.
    destruct (Nat.ltb_spec now 5) as [Hearly|_]; [lia|].
    simpl. intros [H|[H|[]]]; discriminate H. }
  assert (In (5, "C")
            (selected (Invoke churning_pool (always_failing 5)
                         (mkRetryPolicy 3 100) 0))) as Hsel.
  { vm_compute. auto. }
  split; [exact Hgone|]. split; [exact Hsel|].
  destruct (retry_reads_current_snapshot string string churning_pool
              (always_failing 5) (mkRetryPolicy 3 100) 0) as (_ & _ & Hnever & _).
  apply (Hnever "B" 5 Hgone 5 "C" Hsel). lia.
Defined.

(** ** Further properties of the factories *)

Section FactoryCases.

Variable url_Parse : string -> URL + error.
Variables (ctx : Context) (method path instance : string).

(** The three ways a factory call can end. *)
Lemma addsvcFactory_cases :
  (exists tgt dec,
      url_Parse (normalize instance) = inl tgt /\ In path addsvc_paths
      /\ (dec = addtransport_DecodeHTTPSumResponse <-> path = "/sum")
      /\ (dec = addtransport_DecodeHTTPConcatResponse <-> path = "/concat")
      /\ addsvcFactory url_Parse ctx method path instance
         = (Some (NewClient method (set_Path tgt path)
                    addtransport_EncodeHTTPGenericRequest dec), None, None))
  \/ (exists tgt,
         url_Parse (normalize instance) = inl tgt /\ ~ In path addsvc_paths
         /\ addsvcFactory url_Parse ctx method path instance
            = (None, None, Some (fmt_Errorf "unknown stringsvc path %q" [path])))
  \/ (exists err,
         url_Parse (normalize instance) = inr err
         /\ addsvcFactory url_Parse ctx method path instance = (None, None, Some err)).
Proof.
  destruct (url_Parse (normalize instance)) as [tgt|err] eqn:Hparse.
  - unfold addsvcFactory. rewrite Hparse.
    destruct (String.eqb_spec path "/sum") as [->|Hsum].
    { left. exists tgt. eexists. split; [reflexivity|]. split; [simpl; auto|].
      split; [|split; [|reflexivity]]; split; intros H; (reflexivity || discriminate H). }
    destruct (String.eqb_spec path "/concat") as [->|Hconcat].
    { left. exists tgt. eexists. split; [reflexivity|]. split; [simpl; auto|].
      split; [|split; [|reflexivity]]; split; intros H; (reflexivity || discriminate H). }
    right. left. exists tgt. split; [reflexivity|]. split; [|reflexivity].
    simpl. intros [H|[H|[]]]; congruence.
  - right. right. exists err. split; [reflexivity|].
    now apply addsvcFactory_rejected.
Qed.

Lemma stringsvcFactory_cases :
  (exists tgt dec,
      url_Parse (normalize instance) = inl tgt /\ In path stringsvc_paths
      /\ (dec = stringsvc_DecodeUppercaseResponse <-> path = "/uppercase")
      /\ (dec = stringsvc_DecodeCountResponse <-> path = "/count")
      /\ stringsvcFactory url_Parse ctx method path instance
         = (Some (NewClient method (set_Path tgt path) stringsvc_EncodeRequest dec),
            None, None))
  \/ (exists tgt,
         url_Parse (normalize instance) = inl tgt /\ ~ In path stringsvc_paths
         /\ stringsvcFactory url_Parse ctx method path instance
            = (None, None, Some (fmt_Errorf "unknown stringsvc path %q" [path])))
  \/ (exists err,
         url_Parse (normalize instance) = inr err
         /\ stringsvcFactory url_Parse ctx method path instance
            = (None, None, Some err)).
Proof.
  destruct (url_Parse (normalize instance)) as [tgt|err] eqn:Hparse.
  - unfold stringsvcFactory. rewrite Hparse.
    destruct (String.eqb_spec path "/uppercase") as [->|Hupper].
    { left. exists tgt. eexists. split; [reflexivity|]. split; [simpl; auto|].
      split; [|split; [|reflexivity]]; split; intros H; (reflexivity || discriminate H). }
    destruct (String.eqb_spec path "/count") as [->|Hcount].
    { left. exists tgt. eexists. split; [reflexivity|]. split; [simpl; auto|].
      split; [|split; [|reflexivity]]; split; intros H; (reflexivity || discriminate H). }
    right. left. exists tgt. split; [reflexivity|]. split; [|reflexivity].
    simpl. intros [H|[H|[]]]; congruence.
  - right. right. exists err. split; [reflexivity|].
    now apply stringsvcFactory_rejected.
Qed.

End FactoryCases.

(** X1. A factory returns an endpoint exactly when the normalized address
    parses and the path is one of its service's; and it returns an error
    exactly when it returns no endpoint: never both, never neither. *)
Theorem factory_endpoint_iff :
  forall (url_Parse : string -> URL + error) (ctx : Context)
         (method path instance : string),
    (is_Some (built_endpoint (addsvcFactory url_Parse ctx method path instance))
     <-> (exists tgt, url_Parse (normalize instance) = inl tgt)
         /\ In path addsvc_paths)
    /\ (snd (addsvcFactory url_Parse ctx method path instance) = None
        <-> is_Some (built_endpoint (addsvcFactory url_Parse ctx method path instance)))
    /\ (is_Some (built_endpoint (stringsvcFactory url_Parse ctx method path instance))
        <-> (exists tgt, url_Parse (normalize instance) = inl tgt)
            /\ In path stringsvc_paths)
    /\ (snd (stringsvcFactory url_Parse ctx method path instance) = None
        <-> is_Some (built_endpoint
                       (stringsvcFactory url_Parse ctx method path instance))).
Proof.
  intros url_Parse ctx method path instance.
  assert (forall A (x : A), is_Some (Some x)) as Hsome by (intros; eexists; reflexivity).
  assert (forall A, ~ is_Some (@None A)) as Hnone by (intros A [x Hx]; discriminate Hx).
  split; [|split; [|split]].
  - destruct (addsvcFactory_cases url_Parse ctx method path instance)
      as [(tgt & dec & Hparse & Hin & _ & _ & ->)
         |[(tgt & Hparse & Hout & ->)|(err & Hparse & ->)]]; simpl.
    + split; [intros _; eauto|intros _; apply Hsome].
    + split; [intros H; destruct (Hnone _ H)|intros [_ Hin]; contradiction].
    + split; [intros H; destruct (Hnone _ H)|].
      intros [[tgt Htgt] _]. congruence.
  - destruct (addsvcFactory_cases url_Parse ctx method path instance)
      as [(tgt & dec & _ & _ & _ & _ & ->)|[(tgt & _ & _ & ->)|(err & _ & ->)]];
      simpl; (split; [intros H; (apply Hsome || discriminate H)
                     |intros H; (reflexivity || destruct (Hnone _ H))]).
  - destruct (stringsvcFactory_cases url_Parse ctx method path instance)
      as [(tgt & dec & Hparse & Hin & _ & _ & ->)
         |[(tgt & Hparse & Hout & ->)|(err & Hparse & ->)]]; simpl.
    + split; [intros _; eauto|intros _; apply Hsome].
    + split; [intros H; destruct (Hnone _ H)|intros [_ Hin]; contradiction].
    + split; [intros H; destruct (Hnone _ H)|].
      intros [[tgt Htgt] _]. congruence.
  - destruct (stringsvcFactory_cases url_Parse ctx method path instance)
      as [(tgt & dec & _ & _ & _ & _ & ->)|[(tgt & _ & _ & ->)|(err & _ & ->)]];
      simpl; (split; [intros H; (apply Hsome || discriminate H)
                     |intros H; (reflexivity || destruct (Hnone _ H))]).
Qed.

(** The address handed to the parser always begins with "http". *)
Lemma normalize_HasPrefix instance : HasPrefix (normalize instance) "http" = true.
Proof.
  unfold normalize. destruct (HasPrefix instance "http") eqn:Hp; simpl.
  - exact Hp.
  - reflexivity.
Qed.

(** X2. Normalizing is idempotent, so the factories cannot tell an address
    from its normalized form: a bare "host:port" and "http://host:port"
    give the same build, endpoint or error. *)
Theorem factory_normalize_idempotent :
  forall (url_Parse : string -> URL + error) (ctx : Context)
         (method path instance : string),
    normalize (normalize instance) = normalize instance
    /\ addsvcFactory url_Parse ctx method path (normalize instance)
       = addsvcFactory url_Parse ctx method path instance
    /\ stringsvcFactory url_Parse ctx method path (normalize instance)
       = stringsvcFactory url_Parse ctx method path instance.
Proof.
  intros url_Parse ctx method path instance.
  assert (normalize (normalize instance) = normalize instance) as Hidem.
  { apply normalize_with_http, normalize_HasPrefix. }
  split; [exact Hidem|].
  unfold addsvcFactory, stringsvcFactory. rewrite Hidem. split; reflexivity.
Qed.

(** X3. The two factories give the same answer exactly when neither builds
    an endpoint: no path is served by both, a parse error is returned by
    both as it is, and for a path unknown to both they return one and the
    same error, "unknown stringsvc path", also from [addsvcFactory]. *)
Theorem factories_agree_iff_no_endpoint :
  forall (url_Parse : string -> URL + error) (ctx : Context)
         (method path instance : string),
    (addsvcFactory url_Parse ctx method path instance
     = stringsvcFactory url_Parse ctx method path instance
     <-> built_endpoint (addsvcFactory url_Parse ctx method path instance) = None
         /\ built_endpoint (stringsvcFactory url_Parse ctx method path instance)
            = None)
    /\ (built_endpoint (addsvcFactory url_Parse ctx method path instance) = None
        \/ built_endpoint (stringsvcFactory url_Parse ctx method path instance)
           = None).
Proof.
  intros url_Parse ctx method path instance.
  destruct (addsvcFactory_cases url_Parse ctx method path instance)
    as [(tgt & dec & Hparse & Hin & _ & _ & Hadd)
       |[(tgt & Hparse & Hout & Hadd)|(err & Hparse & Hadd)]];
    destruct (stringsvcFactory_cases url_Parse ctx method path instance)
      as [(tgt' & dec' & Hparse' & Hin' & _ & _ & Hstr)
         |[(tgt' & Hparse' & Hout' & Hstr)|(err' & Hparse' & Hstr)]];
    rewrite Hadd, Hstr; simpl; try congruence.
  - exfalso. destruct Hin as [<-|[<-|[]]]; destruct Hin' as [H|[H|[]]]; discriminate H.
  - split; [|now right]. split; [discriminate|]. intros [H _]. discriminate H.
  - split; [|now left]. split; [discriminate|]. intros [_ H]. discriminate H.
  - split; [|now left]. split; [intros _; split; reflexivity|reflexivity].
  - split; [|now left]. split; [intros _; split; reflexivity|].
    intros _. congruence.
Qed.

(** X4. In every endpoint a factory builds, the method is the one the
    factory was made with, the request encoder is the service's only one,
    and the response decoder is the one of the path: the sum decoder for
    "/sum" and for no other path, and so on. *)
Theorem factory_codec_follows_path :
  forall (url_Parse : string -> URL + error) (ctx : Context)
         (method path instance : string) (e : Endpoint),
    (built_endpoint (addsvcFactory url_Parse ctx method path instance) = Some e ->
     client_method e = method
     /\ client_enc e = addtransport_EncodeHTTPGenericRequest
     /\ (client_dec e = addtransport_DecodeHTTPSumResponse <-> path = "/sum")
     /\ (client_dec e = addtransport_DecodeHTTPConcatResponse <-> path = "/concat"))
    /\ (built_endpoint (stringsvcFactory url_Parse ctx method path instance) = Some e ->
        client_method e = method
        /\ client_enc e = stringsvc_EncodeRequest
        /\ (client_dec e = stringsvc_DecodeUppercaseResponse <-> path = "/uppercase")
        /\ (client_dec e = stringsvc_DecodeCountResponse <-> path = "/count")).
Proof.
  intros url_Parse ctx method path instance e. split.
  - destruct (addsvcFactory_cases url_Parse ctx method path instance)
      as [(tgt & dec & _ & _ & Hsum & Hconcat & ->)
         |[(tgt & _ & _ & ->)|(err & _ & ->)]]; simpl; try discriminate.
    intros [= <-]. simpl. auto.
  - destruct (stringsvcFactory_cases url_Parse ctx method path instance)
      as [(tgt & dec & _ & _ & Hupper & Hcount & ->)
         |[(tgt & _ & _ & ->)|(err & _ & ->)]]; simpl; try discriminate.
    intros [= <-]. simpl. auto.
Qed.

Lemma factory_codec_follows_path_witness :
  (client_method (NewClient "POST" (mkURL "" "http://10.0.0.7:8080" "" "/count" "" "")
                    stringsvc_EncodeRequest stringsvc_DecodeCountResponse) = "POST"
   /\ client_enc (NewClient "POST" (mkURL "" "http://10.0.0.7:8080" "" "/count" "" "")
                    stringsvc_EncodeRequest stringsvc_DecodeCountResponse)
      = stringsvc_EncodeRequest
   /\ (client_dec (NewClient "POST" (mkURL "" "http://10.0.0.7:8080" "" "/count" "" "")
                     stringsvc_EncodeRequest stringsvc_DecodeCountResponse)
       = stringsvc_DecodeUppercaseResponse <-> "/count" = "/uppercase")
   /\ (client_dec (NewClient "POST" (mkURL "" "http://10.0.0.7:8080" "" "/count" "" "")
                     stringsvc_EncodeRequest stringsvc_DecodeCountResponse)
       = stringsvc_DecodeCountResponse <-> "/count" = "/count"))
  /\ built_endpoint
       (stringsvcFactory parse_verbatim context_Background "POST" "/count"
          "10.0.0.7:8080")
     = Some (NewClient "POST" (mkURL "" "http://10.0.0.7:8080" "" "/count" "" "")
               stringsvc_EncodeRequest stringsvc_DecodeCountResponse).
Proof.
  split; [|reflexivity].
  apply (factory_codec_follows_path parse_verbatim context_Background "POST"
           "/count" "10.0.0.7:8080").
  reflexivity.
Defined.

(** ** Further properties of the start-up *)

(** X5. Every route is retried under the same bounds, the values of the
    retry.max and retry.timeout flags: no retry endpoint [main] builds has
    any other. *)
Theorem routes_share_retry_policy :
  forall (ConsulClient : Type) (url_Parse : string -> URL + error)
         (api_DefaultConfig : Config)
         (api_NewClient : Config -> ConsulClient + error)
         (errc : error) (flags : Flags) (w : World),
    main ConsulClient url_Parse api_DefaultConfig api_NewClient errc flags boot
    = (Continue tt, w) ->
    Forall (fun p => route_policy w p = Some (retryMax flags, retryTimeout flags))
      gateway_routes
    /\ Forall (fun o => match o with
                       | RetryEndpoint max timeout _ =>
                           max = retryMax flags /\ timeout = retryTimeout flags
                       | _ => True
                       end) (heap w).
Proof.
  intros ConsulClient url_Parse api_DefaultConfig api_NewClient errc flags w Hrun.
  destruct (main_served _ _ _ _ _ _ _ Hrun) as [c Hc].
  rewrite (main_wires _ url_Parse _ _ errc _ c Hc) in Hrun.
  injection Hrun as <-.
  split.
  - unfold gateway_routes. repeat constructor.
  - cbn [heap]. repeat constructor.
Qed.

Lemma routes_share_retry_policy_witness :
  Forall (fun p => route_policy (snd started) p = Some (3%Z, 500000000%Z))
    gateway_routes
  /\ Forall (fun o => match o with
                     | RetryEndpoint max timeout _ =>
                         max = 3%Z /\ timeout = 500000000%Z
                     | _ => True
                     end) (heap (snd started)).
Proof.
  apply (routes_share_retry_policy unit parse_verbatim sample_config
           (fun _ => inl tt) (fmt_Errorf "%s" ["interrupt"]) default_flags
           (snd started)).
  vm_compute. reflexivity.
Defined.

(** X6. The factory behind each of the four routes is made with the method
    POST and with a path its service knows, the route's path without the
    service prefix. So for a route's pool a build fails only when
    [url.Parse] fails, with that very error, and never with the unknown
    path error. *)
Theorem route_factories_fail_only_on_parse :
  forall (ConsulClient : Type) (url_Parse : string -> URL + error)
         (api_DefaultConfig : Config)
         (api_NewClient : Config -> ConsulClient + error)
         (errc : error) (flags : Flags) (w : World) (p : string),
    main ConsulClient url_Parse api_DefaultConfig api_NewClient errc flags boot
    = (Continue tt, w) ->
    In p gateway_routes ->
    exists f,
      route_factory w p = Some f
      /\ forall instance,
          match url_Parse (normalize instance) with
          | inl tgt =>
              exists e,
                f instance = (Some e, None, None)
                /\ client_method e = "POST"
                /\ client_tgt e = set_Path tgt (Path (client_tgt e))
                /\ (p = "/addsvc" +:+ Path (client_tgt e)
                    \/ p = "/stringsvc" +:+ Path (client_tgt e))
          | inr err => f instance = (None, None, Some err)
          end.
Proof.
  intros ConsulClient url_Parse api_DefaultConfig api_NewClient errc flags w p
         Hrun Hp.
  destruct (main_served _ _ _ _ _ _ _ Hrun) as [c Hc].
  rewrite (main_wires _ url_Parse _ _ errc _ c Hc) in Hrun.
  injection Hrun as <-.
  destruct Hp as [<-|[<-|[<-|[<-|[]]]]];
    (eexists; split; [reflexivity|]; intros instance;
     unfold addsvcFactory, stringsvcFactory;
     destruct (url_Parse (normalize instance)) as [tgt|err]; [|reflexivity];
     simpl; eexists; split; [reflexivity|]; simpl; auto).
Qed.

Lemma route_factories_fail_only_on_parse_witness :
  exists f,
    route_factory (snd started) "/stringsvc/count" = Some f
    /\ forall instance,
        match parse_verbatim (normalize instance) with
        | inl tgt =>
            exists e,
              f instance = (Some e, None, None)
              /\ client_method e = "POST"
              /\ client_tgt e = set_Path tgt (Path (client_tgt e))
              /\ ("/stringsvc/count" = "/addsvc" +:+ Path (client_tgt e)
                  \/ "/stringsvc/count" = "/stringsvc" +:+ Path (client_tgt e))
        | inr err => f instance = (None, None, Some err)
        end.
Proof.
  apply (route_factories_fail_only_on_parse unit parse_verbatim sample_config
           (fun _ => inl tt) (fmt_Errorf "%s" ["interrupt"]) default_flags
           (snd started) "/stringsvc/count").
  - vm_compute. reflexivity.
  - simpl. auto.
Defined.

(** X7. [main] has one way to exit and one way to serve: it exits, with
    status 1 and no route registered, exactly when [api.NewClient] fails on
    the configuration it is handed, and it reaches [http.ListenAndServe] on
    the http.addr flag exactly when the client is built. *)
Theorem main_exits_iff_client_fails :
  forall (ConsulClient : Type) (url_Parse : string -> URL + error)
         (api_DefaultConfig : Config)
         (api_NewClient : Config -> ConsulClient + error)
         (errc : error) (flags : Flags),
    (fst (main ConsulClient url_Parse api_DefaultConfig api_NewClient errc flags boot)
     = Exited 1
     <-> exists err,
          api_NewClient (consul_config api_DefaultConfig flags) = inr err)
    /\ (fst (main ConsulClient url_Parse api_DefaultConfig api_NewClient errc flags
               boot) = Continue tt
        <-> exists c, api_NewClient (consul_config api_DefaultConfig flags) = inl c)
    /\ (In (EvListenAndServe (httpAddr flags))
           (events (snd (main ConsulClient url_Parse api_DefaultConfig api_NewClient
                           errc flags boot)))
        <-> exists c, api_NewClient (consul_config api_DefaultConfig flags) = inl c)
    /\ (routes (snd (main ConsulClient url_Parse api_DefaultConfig api_NewClient
                       errc flags boot)) = []
        <-> exists err,
             api_NewClient (consul_config api_DefaultConfig flags) = inr err).
Proof.
  intros ConsulClient url_Parse api_DefaultConfig api_NewClient errc flags.
  destruct (api_NewClient (consul_config api_DefaultConfig flags)) as [c|err] eqn:Hc.
  - rewrite (main_wires _ url_Parse _ _ errc _ c Hc). cbn [fst snd events routes].
    repeat split; try discriminate; eauto.
    + intros [err Herr]. discriminate Herr.
    + intros _. simpl. auto.
    + intros [err Herr]. discriminate Herr.
  - rewrite (main_exits _ url_Parse _ _ errc _ err boot Hc).
    cbn [fst snd events routes boot].
    repeat split; try discriminate; eauto.
    + intros [c Hc']. discriminate Hc'.
    + simpl. intros [H|[]]. discriminate H.
    + intros [c Hc']. discriminate Hc'.
Qed.

(** X8. The service discovery block of [main] is [getClient] with the agent
    address chosen by the flag: the consul.addr flag when it is not empty,
    the default configuration's own address when it is. So [main] exits at
    start-up exactly when that [getClient] call does, leaving the same log
    line behind. *)
Theorem main_client_is_getClient :
  forall (ConsulClient : Type) (url_Parse : string -> URL + error)
         (api_DefaultConfig : Config)
         (api_NewClient : Config -> ConsulClient + error)
         (errc : error) (flags : Flags) (w : World),
    getClient ConsulClient api_DefaultConfig api_NewClient
      (if String.eqb (consulAddr flags) "" then Address api_DefaultConfig
       else consulAddr flags) w
    = main_client ConsulClient api_DefaultConfig api_NewClient flags w
    /\ forall status w',
        getClient ConsulClient api_DefaultConfig api_NewClient
          (if String.eqb (consulAddr flags) "" then Address api_DefaultConfig
           else consulAddr flags) w = (Exited status, w')
        <-> main ConsulClient url_Parse api_DefaultConfig api_NewClient errc flags w
            = (Exited status, w').
Proof.
  intros ConsulClient url_Parse api_DefaultConfig api_NewClient errc flags w.
  assert (set_Address api_DefaultConfig
            (if String.eqb (consulAddr flags) "" then Address api_DefaultConfig
             else consulAddr flags)
          = consul_config api_DefaultConfig flags) as Hcfg.
  { unfold consul_config. destruct (consulAddr flags) as [|a s]; simpl.
    - now destruct api_DefaultConfig.
    - reflexivity. }
  assert (getClient ConsulClient api_DefaultConfig api_NewClient
            (if String.eqb (consulAddr flags) "" then Address api_DefaultConfig
             else consulAddr flags) w
          = main_client ConsulClient api_DefaultConfig api_NewClient flags w) as Hsame.
  { unfold getClient, main_client. now rewrite Hcfg. }
  split; [exact Hsame|].
  intros status w'. rewrite Hsame.
  destruct (api_NewClient (consul_config api_DefaultConfig flags)) as [c|err] eqn:Hc.
  - split.
    + unfold main_client, ret. rewrite Hc. discriminate.
    + unfold main, main_client, bind, ret. rewrite Hc. cbv. discriminate.
  - rewrite (main_exits _ url_Parse _ _ errc _ err w Hc).
    unfold main_client. rewrite Hc. cbv [bind Log emit os_Exit].
    split; intros [= <- <-]; reflexivity.
Qed.

(** X9. Once [main] serves, exactly four paths have a handler,
    /addsvc/sum, /addsvc/concat, /stringsvc/uppercase and /stringsvc/count;
    any other path has none. *)
Theorem routes_are_the_four :
  forall (ConsulClient : Type) (url_Parse : string -> URL + error)
         (api_DefaultConfig : Config)
         (api_NewClient : Config -> ConsulClient + error)
         (errc : error) (flags : Flags) (w : World) (p : string),
    main ConsulClient url_Parse api_DefaultConfig api_NewClient errc flags boot
    = (Continue tt, w) ->
    (is_Some (route w p) <-> In p gateway_routes)
    /\ (is_Some (route_factory w p) <-> In p gateway_routes)
    /\ length (routes w) = 4.
Proof.
  intros ConsulClient url_Parse api_DefaultConfig api_NewClient errc flags w p Hrun.
  destruct (main_served _ _ _ _ _ _ _ Hrun) as [c Hc].
  rewrite (main_wires _ url_Parse _ _ errc _ c Hc) in Hrun.
  injection Hrun as <-.
  assert (forall A (x : A), is_Some (Some x)) as Hsome by (intros; eexists; reflexivity).
  assert (forall A, ~ is_Some (@None A)) as Hnone by (intros A [x Hx]; discriminate Hx).
  unfold route_factory, route_endpointer, route_balancer, route_retry, route,
    gateway_routes.
  cbn [routes find].
  destruct (String.eqb_spec "/addsvc/sum" p) as [<-|H1];
    [repeat split; intros; (apply Hsome || (simpl; auto))|].
  destruct (String.eqb_spec "/addsvc/concat" p) as [<-|H2];
    [repeat split; intros; (apply Hsome || (simpl; auto))|].
  destruct (String.eqb_spec "/stringsvc/uppercase" p) as [<-|H3];
    [repeat split; intros; (apply Hsome || (simpl; auto))|].
  destruct (String.eqb_spec "/stringsvc/count" p) as [<-|H4];
    [repeat split; intros; (apply Hsome || (simpl; auto))|].
  repeat split; try (intros H; destruct (Hnone _ H));
    simpl; intros [H|[H|[H|[H|[]]]]]; congruence.
Qed.

Lemma routes_are_the_four_witness :
  (is_Some (route (snd started) "/metrics") <-> In "/metrics" gateway_routes)
  /\ (is_Some (route_factory (snd started) "/metrics") <-> In "/metrics" gateway_routes)
  /\ length (routes (snd started)) = 4.
Proof.
  apply (routes_are_the_four unit parse_verbatim sample_config
           (fun _ => inl tt) (fmt_Errorf "%s" ["interrupt"]) default_flags
           (snd started) "/metrics").
  vm_compute. reflexivity.
Defined.

(** X10. The path of the instance address is thrown away: the endpoint's
    target keeps scheme, host, query and fragment of the parsed address and
    always carries the route's path, so two addresses that differ only in
    their path give the same build. *)
Theorem factory_drops_instance_path :
  forall (url_Parse : string -> URL + error) (ctx : Context)
         (method path i1 i2 : string) (t1 t2 : URL),
    url_Parse (normalize i1) = inl t1 ->
    url_Parse (normalize i2) = inl t2 ->
    set_Path t1 "" = set_Path t2 "" ->
    addsvcFactory url_Parse ctx method path i1
    = addsvcFactory url_Parse ctx method path i2
    /\ stringsvcFactory url_Parse ctx method path i1
       = stringsvcFactory url_Parse ctx method path i2
    /\ forall e,
        built_endpoint (addsvcFactory url_Parse ctx method path i1) = Some e
        \/ built_endpoint (stringsvcFactory url_Parse ctx method path i1) = Some e ->
        Path (client_tgt e) = path
        /\ set_Path (client_tgt e) "" = set_Path t1 "".
Proof.
  intros url_Parse ctx method path i1 i2 t1 t2 H1 H2 Hsame.
  assert (set_Path t1 path = set_Path t2 path) as Htgt.
  { unfold set_Path in *. injection Hsame as -> -> -> -> ->. reflexivity. }
  unfold addsvcFactory, stringsvcFactory. rewrite H1, H2, Htgt.
  split; [reflexivity|]. split; [reflexivity|].
  intros e [H|H]; revert H.
  - destruct (String.eqb path "/sum"); [intros [= <-]; rewrite <- Htgt; auto|].
    destruct (String.eqb path "/concat"); [intros [= <-]; rewrite <- Htgt; auto|].
    discriminate.
  - destruct (String.eqb path "/uppercase"); [intros [= <-]; rewrite <- Htgt; auto|].
    destruct (String.eqb path "/count"); [intros [= <-]; rewrite <- Htgt; auto|].
    discriminate.
Qed.

Lemma factory_drops_instance_path_witness :
  addsvcFactory parse_as_path context_Background "POST" "/sum" "10.0.0.7:8080/v1"
  = addsvcFactory parse_as_path context_Background "POST" "/sum" "10.0.0.7:8080/v2"
  /\ stringsvcFactory parse_as_path context_Background "POST" "/sum" "10.0.0.7:8080/v1"
     = stringsvcFactory parse_as_path context_Background "POST" "/sum"
         "10.0.0.7:8080/v2"
  /\ forall e,
      built_endpoint
        (addsvcFactory parse_as_path context_Background "POST" "/sum"
           "10.0.0.7:8080/v1") = Some e
      \/ built_endpoint
           (stringsvcFactory parse_as_path context_Background "POST" "/sum"
              "10.0.0.7:8080/v1") = Some e ->
      Path (client_tgt e) = "/sum"
      /\ set_Path (client_tgt e) ""
         = set_Path (mkURL "http" "" "10.0.0.7:8080" "/v1" "" "") "".
Proof.
  apply (factory_drops_instance_path parse_as_path context_Background "POST" "/sum"
           "10.0.0.7:8080/v1" "10.0.0.7:8080/v2"
           (mkURL "http" "" "10.0.0.7:8080" "/v1" "" "")
           (mkURL "http" "" "10.0.0.7:8080" "/v2" "" "")).
  - reflexivity.
  - reflexivity.
  - reflexivity.
Defined.
